(** * Kong ingress controller: listener builder and bulk-propagation harness

    A shallow embedding of [internal/util/builder/listener.go] (the
    [ListenerBuilder]) and of the end-to-end performance test
    ([TestBasicPerf] and its sample selector [getRandomList]).

    Conventions.
    - Go's [int] is a 64-bit signed integer: a [Z] with the wrap-around of
      its arithmetic written out ([wrap64]); [PortNumber] is an [int32].
    - A Go pointer field is an [option]: [None] is [nil].  A pointer that the
      caller hands in ([*AllowedRoutes]) is kept as the address it points to,
      so that two builders given the same pointer alias the same object.
    - A Go panic or a failed [require] is an explicit outcome, never a
      missing case. *)

From Stdlib Require Import ZArith List String Bool Lia Permutation Arith FinFun.
From Stdlib Require Import Ascii DecimalString DecimalZ.
Import ListNotations.
Local Open Scope Z_scope.

(** ** Machine integers *)

Module GoInt.

Definition min_int : Z := - 2 ^ 63.
Definition max_int : Z := 2 ^ 63 - 1.

(** Two's complement wrap-around of a [w]-bit signed integer. *)
Definition wrap (w : Z) (z : Z) : Z :=
  (z + 2 ^ (w - 1)) mod 2 ^ w - 2 ^ (w - 1).

Definition wrap64 : Z -> Z := wrap 64.
Definition wrap32 : Z -> Z := wrap 32.

Definition is_int (z : Z) : Prop := min_int <= z <= max_int.

(** [a - b] on [int]. *)
Definition sub (a b : Z) : Z := wrap64 (a - b).

End GoInt.

(** ** The gateway API listener and its builder *)

Module gatewayv1beta1.

(** Address of a heap object reached through a pointer. *)
Definition loc := nat.

(** [gatewayv1beta1.Listener].  [Hostname], [TLS] and [AllowedRoutes] are
    pointer fields; [Port] is a [PortNumber] ([int32]); [Name] and
    [Protocol] are strings. *)
Record Listener := mkListener {
  Name : string;
  Hostname : option string;
  Port : Z;
  Protocol : string;
  TLS : option loc;
  AllowedRoutes : option loc
}.

(** The protocol constants of the gateway API. *)
Definition HTTPProtocolType : string := "HTTP".
Definition HTTPSProtocolType : string := "HTTPS".
Definition TLSProtocolType : string := "TLS".
Definition TCPProtocolType : string := "TCP".

Definition SectionName (s : string) : string := s.
Definition Hostname' (s : string) : string := s.

(** The conversion [PortNumber(port)] of an [int] keeps the low 32 bits. *)
Definition PortNumber (port : Z) : Z := GoInt.wrap32 port.

End gatewayv1beta1.

Module Builder.

Import gatewayv1beta1.

Record ListenerBuilder := mkBuilder { listener : Listener }.

(** [addressOf v] allocates a copy of [v] and returns its address; the copy
    is reachable from nowhere else, so the pointer is modelled by the value
    it points to. *)
Definition addressOf {A : Type} (v : A) : option A := Some v.

(** The composite literal names [Name] only: every other field has Go's
    zero value. *)
Definition NewListener (name : string) : ListenerBuilder :=
  {| listener := {| Name := SectionName name;
                    Hostname := None;
                    Port := 0;
                    Protocol := "";
                    TLS := None;
                    AllowedRoutes := None |} |}.

Definition Build (b : ListenerBuilder) : Listener := listener b.

Definition IntoSlice (b : ListenerBuilder) : list Listener := [listener b].

Definition set_Port (p : Z) (l : Listener) : Listener :=
  {| Name := Name l; Hostname := Hostname l; Port := p;
     Protocol := Protocol l; TLS := TLS l;
     AllowedRoutes := AllowedRoutes l |}.

Definition set_Protocol (p : string) (l : Listener) : Listener :=
  {| Name := Name l; Hostname := Hostname l; Port := Port l;
     Protocol := p; TLS := TLS l;
     AllowedRoutes := AllowedRoutes l |}.

Definition set_Hostname (h : option string) (l : Listener) : Listener :=
  {| Name := Name l; Hostname := h; Port := Port l;
     Protocol := Protocol l; TLS := TLS l;
     AllowedRoutes := AllowedRoutes l |}.

Definition set_AllowedRoutes (r : option loc) (l : Listener) : Listener :=
  {| Name := Name l; Hostname := Hostname l; Port := Port l;
     Protocol := Protocol l; TLS := TLS l;
     AllowedRoutes := r |}.

(** The setters mutate the builder in place and return it; here the
    builder is threaded through. *)
Definition WithPort (port : Z) (b : ListenerBuilder) : ListenerBuilder :=
  {| listener := set_Port (PortNumber port) (listener b) |}.

Definition HTTP (b : ListenerBuilder) : ListenerBuilder :=
  {| listener := set_Protocol HTTPProtocolType (listener b) |}.

Definition HTTPS (b : ListenerBuilder) : ListenerBuilder :=
  {| listener := set_Protocol HTTPSProtocolType (listener b) |}.

Definition TLS (b : ListenerBuilder) : ListenerBuilder :=
  {| listener := set_Protocol TLSProtocolType (listener b) |}.

Definition TCP (b : ListenerBuilder) : ListenerBuilder :=
  {| listener := set_Protocol TCPProtocolType (listener b) |}.

Definition WithHostname (hostname : string) (b : ListenerBuilder)
  : ListenerBuilder :=
  {| listener := set_Hostname (addressOf (Hostname' hostname)) (listener b) |}.

Definition WithAllowedRoutes (routes : option loc) (b : ListenerBuilder)
  : ListenerBuilder :=
  {| listener := set_AllowedRoutes routes (listener b) |}.

(** One call of the fluent interface, and a chain of them. *)
Inductive setter : Type :=
| CallWithPort (port : Z)
| CallHTTP
| CallHTTPS
| CallTLS
| CallTCP
| CallWithHostname (hostname : string)
| CallWithAllowedRoutes (routes : option loc).

Definition call (b : ListenerBuilder) (c : setter) : ListenerBuilder :=
  match c with
  | CallWithPort port => WithPort port b
  | CallHTTP => HTTP b
  | CallHTTPS => HTTPS b
  | CallTLS => TLS b
  | CallTCP => TCP b
  | CallWithHostname hostname => WithHostname hostname b
  | CallWithAllowedRoutes routes => WithAllowedRoutes routes b
  end.

Definition chain (cs : list setter) (b : ListenerBuilder) : ListenerBuilder :=
  fold_left call cs b.

End Builder.

(** ** The sample selector *)

Module Sample.

(** [0, 1, ..., n-1]. *)
Definition iota (n : Z) : list Z := map Z.of_nat (seq 0 (Z.to_nat n)).

(** What a call [rand.Perm(n)] may return: some permutation of [[0, n)], as
    a slice of length and capacity [n].  The call panics when [n < 0]. *)
Definition rand_Perm_returns (n : Z) (p : list Z) : Prop :=
  0 <= n /\ Permutation p (iota n).

(** [s[:hi]]: panics ([None]) unless [0 <= hi <= cap(s)]. *)
Definition slice_to {A : Type} (s : list A) (hi : Z) : option (list A) :=
  if (0 <=? hi) && (hi <=? Z.of_nat (List.length s))
  then Some (firstn (Z.to_nat hi) s)
  else None.

(** [getRandomList n]; [randPerm] is what [rand.Perm(n)] returns if the
    call is reached. *)
Definition getRandomList (n : Z) (randPerm : list Z) : option (list Z) :=
  if n <=? 10 then Some [0; n]
  else
    match slice_to randPerm 10 with
    | None => None
    | Some randPerm' => Some (randPerm' ++ [0; GoInt.sub n 1])
    end.

(** Number of different indices in a slice. *)
Definition distinct (l : list Z) : nat := List.length (nodup Z.eq_dec l).

Definition in_range (n : Z) (i : Z) : Prop := 0 <= i < n.

End Sample.

(** ** One verification task *)

Module Probe.

(** What [b.ReadFrom(resp.Body)] returns: the bytes read (their number is
    [n]) and the error, if any. *)
Record read_result := mkRead {
  content : string;
  read_err : option string
}.

(** What [helpers.DefaultHTTPClient().Do(req)] returns on one attempt. *)
Inductive response : Type :=
| DoError (err : string)
| DoResponse (StatusCode : Z) (body : read_result).

Definition StatusOK : Z := 200.

(** [strings.Contains(s, substr)]. *)
Fixpoint Contains (s substr : string) : bool :=
  String.prefix substr s
  || match s with
     | EmptyString => false
     | String _ s' => Contains s' substr
     end.

(** How one run of the condition closure ends: it returns a boolean, or a
    [require] inside it fails the test ([t.FailNow]). *)
Inductive verdict : Type :=
| Return (observed : bool)
| FailNow.

Definition warning (url err : string) : string :=
  ("WARNING: error while waiting for " ++ url ++ ": " ++ err)%string.

(** The closure handed to [require.Eventually], with the lines it logs. *)
Definition condition (url : string) (resp : response) : verdict * list string :=
  match resp with
  | DoError err => (Return false, [warning url err])
  | DoResponse code body =>
      if code =? StatusOK then
        match read_err body with
        | Some _ => (FailNow, [])
        | None =>
            if 0 <? Z.of_nat (String.length (content body))
            then (Return (Contains (content body) "origin"), [])
            else (FailNow, [])
        end
      else (Return false, [])
  end.

(** Terminal outcome of a verification task. *)
Inductive outcome : Type :=
| Succeeded
| TimedOut
| RequestError.

Definition transient (r : response) : Prop := exists err, r = DoError err.

(** A response on which a [require] of the closure fails. *)
Definition fatal (r : response) : Prop :=
  exists body, r = DoResponse StatusOK body
               /\ (read_err body <> None \/ content body = EmptyString).

End Probe.

(** ** The harness: [TestBasicPerf] from [t1 := time.Now()] on *)

Module Harness.

Import Probe.

(** Number of ingress rules the test generates and submits. *)
Definition ruleCount : Z := 10000.

(** Where the main goroutine stands. *)
Inductive main_pc : Type :=
| AtStart                      (* before [t1 := time.Now()] *)
| AtKubeconfig                 (* [getTemporaryKubeconfig] *)
| AtApply                      (* [cmd.CombinedOutput()] has been called *)
| AtT2                         (* before [t2 := time.Now()] *)
| AtProxyIP                    (* [getKongProxyIP] *)
| AtSelect                     (* [getRandomList], [wg.Add] *)
| AtDispatch (todo : list Z)   (* the [range] loop of [go] statements *)
| AtWait                       (* [wg.Wait()] *)
| AtT4                         (* before [t4 := time.Now()] *)
| AtReport                     (* the two [t.Logf] of durations *)
| Finished
| Exited.                      (* [t.FailNow] or a panic in the main goroutine *)

(** What marked the test as failed: the [require] that did not hold, or the
    panic.  The first four belong to the main goroutine, the others to the
    goroutine [id]. *)
Inductive cause : Type :=
| KubeconfigFailed                         (* inside [getTemporaryKubeconfig] *)
| ApplyFailed                              (* [require.NoError] on the apply *)
| ProxyIPFailed                            (* inside [getKongProxyIP] *)
| SelectorPanicked                         (* [getRandomList] panicked *)
| RequestNotBuilt (id : nat)               (* [require.NoError] on the request *)
| BodyNotRead (id : nat) (resp : response) (* a [require] of the closure *)
| NeverObserved (id : nat).                (* [require.Eventually] itself *)

Definition main_cause (c : cause) : bool :=
  match c with
  | KubeconfigFailed | ApplyFailed | ProxyIPFailed | SelectorPanicked => true
  | _ => false
  end.

Inductive event : Type :=
| EvNow (t : Z)
| EvApplyCalled
| EvApplyReturned (ok : bool)
| EvDispatch (i : Z)
| EvResolved (id : nat) (o : outcome)
| EvFailed (c : cause).

(** A goroutine started by the loop: the index it checks and its outcome
    once it has resolved. *)
Definition goroutine : Type := Z * option outcome.

(** How far a goroutine has come: started by [go] but not yet run, or inside
    [require.Eventually] since the instant [started]; [closure_alive] is
    false once a [require] has ended its polling closure. *)
Inductive phase : Type :=
| Spawned
| Polling (started : Z) (closure_alive : bool).

Record state := mkState {
  pc : main_pc;
  now : Z;                         (* the wall clock, in milliseconds *)
  t1 : option Z;
  t2 : option Z;
  t4 : option Z;
  wg : Z;                          (* counter of the [sync.WaitGroup] *)
  tasks : list goroutine;          (* in order of dispatch *)
  failed : bool;                   (* the test has been marked as failed *)
  report : option (Z * Z);         (* the two logged durations *)
  trace : list event;              (* newest first *)
  phases : list phase;             (* one per goroutine, as [tasks] *)
  logs : list string               (* lines of the closures, newest first *)
}.

Definition init : state :=
  {| pc := AtStart; now := 0; t1 := None; t2 := None; t4 := None; wg := 0;
     tasks := []; failed := false; report := None; trace := [];
     phases := []; logs := [] |}.

Definition goto (p : main_pc) (s : state) : state :=
  mkState p (now s) (t1 s) (t2 s) (t4 s) (wg s) (tasks s) (failed s)
          (report s) (trace s) (phases s) (logs s).

Definition emit (e : event) (s : state) : state :=
  mkState (pc s) (now s) (t1 s) (t2 s) (t4 s) (wg s) (tasks s) (failed s)
          (report s) (e :: trace s) (phases s) (logs s).

(** [t.FailNow()] in the main goroutine, for the reason [c]. *)
Definition fail_main (c : cause) (s : state) : state :=
  mkState Exited (now s) (t1 s) (t2 s) (t4 s) (wg s) (tasks s) true
          (report s) (EvFailed c :: trace s) (phases s) (logs s).

(** [a.Sub(b)] of two instants. *)
Definition Sub (a b : Z) : Z := a - b.

(** The goroutine [id] resolves with outcome [o]. *)
Fixpoint resolve_at (id : nat) (o : outcome) (ts : list goroutine)
  : option (list goroutine) :=
  match ts, id with
  | [], _ => None
  | (i, None) :: rest, O => Some ((i, Some o) :: rest)
  | (_, Some _) :: _, O => None
  | t :: rest, S id' =>
      match resolve_at id' o rest with
      | Some rest' => Some (t :: rest')
      | None => None
      end
  end.

Definition is_running (g : goroutine) : bool :=
  match snd g with None => true | Some _ => false end.

Definition running (ts : list goroutine) : nat :=
  List.length (filter is_running ts).

Definition failure (o : outcome) : bool :=
  match o with Succeeded => false | _ => true end.

(** The goroutine [id] has been started and has not resolved. *)
Definition unresolved (id : nat) (s : state) : bool :=
  match nth_error (tasks s) id with
  | Some g => is_running g
  | None => false
  end.

Fixpoint replace_at (id : nat) (ph : phase) (l : list phase) : list phase :=
  match l, id with
  | [], _ => []
  | _ :: rest, O => ph :: rest
  | x :: rest, S id' => x :: replace_at id' ph rest
  end.

Definition set_phase (id : nat) (ph : phase) (s : state) : state :=
  mkState (pc s) (now s) (t1 s) (t2 s) (t4 s) (wg s) (tasks s) (failed s)
          (report s) (trace s) (replace_at id ph (phases s)) (logs s).

(** [t.Logf] from a closure. *)
Definition add_logs (lines : list string) (s : state) : state :=
  mkState (pc s) (now s) (t1 s) (t2 s) (t4 s) (wg s) (tasks s) (failed s)
          (report s) (trace s) (phases s) (lines ++ logs s).

(** A [require] fails in the polling closure of the goroutine [id]: the test
    is marked as failed at once; the goroutine itself goes on waiting. *)
Definition fail_closure (id : nat) (resp : response) (started : Z)
    (s : state) : state :=
  mkState (pc s) (now s) (t1 s) (t2 s) (t4 s) (wg s) (tasks s) true
          (report s) (EvFailed (BodyNotRead id resp) :: trace s)
          (replace_at id (Polling started false) (phases s)) (logs s).

Definition failures (why : option cause) : list event :=
  match why with
  | Some c => [EvFailed c]
  | None => []
  end.

Definition is_some {A : Type} (x : option A) : bool :=
  match x with Some _ => true | None => false end.

(** The goroutine [id] ends with outcome [o], after the failed [require]
    [why] if there is one; its deferred [wg.Done()] runs in either case. *)
Definition finish (id : nat) (o : outcome) (why : option cause) (s : state)
  : option state :=
  match resolve_at id o (tasks s) with
  | None => None
  | Some ts =>
      Some (mkState (pc s) (now s) (t1 s) (t2 s) (t4 s) (wg s - 1) ts
                    (failed s || is_some why) (report s)
                    (EvResolved id o :: failures why ++ trace s)
                    (phases s) (logs s))
  end.

(** What the scheduler and the environment choose at each step. *)
Inductive action : Type :=
| Tick
    (* a millisecond passes *)
| Main (ok : bool)
    (* the main goroutine runs its next statement; [ok] is the result of
       the external call made there, if there is one *)
| Begin (id : nat) (new_request_ok : bool)
    (* the goroutine [id] builds its request and enters
       [require.Eventually] *)
| Attempt (id : nat) (resp : response)
    (* the closure of the goroutine [id] runs once; [Do] returns [resp] *)
| Deadline (id : nat).
    (* the timer of the goroutine [id] fires *)

Section Run.

(** The address of the proxy, the deadline of the suite in milliseconds
    and the permutation [rand.Perm] hands out. *)
Variable url : string.
Variable ingressWait : Z.
Variable randPerm : list Z.

Definition main_step (ok : bool) (s : state) : option state :=
  match pc s with
  | AtStart =>
      Some (mkState AtKubeconfig (now s) (Some (now s)) (t2 s) (t4 s)
                    (wg s) (tasks s) (failed s) (report s)
                    (EvNow (now s) :: trace s) (phases s) (logs s))
  | AtKubeconfig =>
      if ok then Some (emit EvApplyCalled (goto AtApply s))
      else Some (fail_main KubeconfigFailed s)
  | AtApply =>
      if ok then Some (emit (EvApplyReturned true) (goto AtT2 s))
      else Some (fail_main ApplyFailed (emit (EvApplyReturned false) s))
  | AtT2 =>
      Some (mkState AtProxyIP (now s) (t1 s) (Some (now s)) (t4 s)
                    (wg s) (tasks s) (failed s) (report s)
                    (EvNow (now s) :: trace s) (phases s) (logs s))
  | AtProxyIP =>
      if ok then Some (goto AtSelect s) else Some (fail_main ProxyIPFailed s)
  | AtSelect =>
      match Sample.getRandomList ruleCount randPerm with
      | None => Some (fail_main SelectorPanicked s)
      | Some randomList =>
          Some (mkState (AtDispatch randomList) (now s) (t1 s) (t2 s)
                        (t4 s)
                        (wg s + Z.of_nat (List.length randomList))
                        (tasks s) (failed s) (report s) (trace s)
                        (phases s) (logs s))
      end
  | AtDispatch [] => Some (goto AtWait s)
  | AtDispatch (i :: todo) =>
      Some (mkState (AtDispatch todo) (now s) (t1 s) (t2 s) (t4 s)
                    (wg s) (tasks s ++ [(i, None)]) (failed s)
                    (report s) (EvDispatch i :: trace s)
                    (phases s ++ [Spawned]) (logs s))
  | AtWait =>
      if wg s =? 0 then Some (goto AtT4 s) else None
  | AtT4 =>
      Some (mkState AtReport (now s) (t1 s) (t2 s) (Some (now s))
                    (wg s) (tasks s) (failed s) (report s)
                    (EvNow (now s) :: trace s) (phases s) (logs s))
  | AtReport =>
      match t1 s, t2 s, t4 s with
      | Some a, Some b, Some c =>
          Some (mkState Finished (now s) (t1 s) (t2 s) (t4 s) (wg s)
                        (tasks s) (failed s)
                        (Some (Sub b a, Sub c b)) (trace s)
                        (phases s) (logs s))
      | _, _, _ => None
      end
  | Finished => None
  | Exited => None
  end.

(** The first statements of the goroutine: when the request cannot be
    built, [require.NoError] ends the goroutine; otherwise it enters
    [require.Eventually], whose timer starts now. *)
Definition begin_step (id : nat) (new_request_ok : bool) (s : state)
  : option state :=
  match nth_error (phases s) id with
  | Some Spawned =>
      if new_request_ok then
        if unresolved id s
        then Some (set_phase id (Polling (now s) true) s)
        else None
      else finish id RequestError (Some (RequestNotBuilt id)) s
  | _ => None
  end.

(** Modelled from the spec: [require.Eventually] is a function of the
    testify library.  Per sections 4.2 and 5 the task issues the probe again
    and again, resolves with success when the probe is observed, and is
    ended by nothing but its own deadline.  One attempt runs the closure of
    lines 168-184 on what [Do] returns: observed, the goroutine resolves with
    success; not observed, it stays in the poll; when a [require] of the
    closure fails, the test is marked as failed and the closure delivers no
    verdict, so that no further attempt is made and the goroutine waits for
    its deadline.  How many attempts fit before the deadline is left to the
    schedule. *)
Definition attempt_step (id : nat) (resp : response) (s : state)
  : option state :=
  match nth_error (phases s) id with
  | Some (Polling started true) =>
      if unresolved id s then
        match condition url resp with
        | (Return true, lines) => finish id Succeeded None (add_logs lines s)
        | (Return false, lines) => Some (add_logs lines s)
        | (FailNow, lines) =>
            Some (fail_closure id resp started (add_logs lines s))
        end
      else None
  | _ => None
  end.

(** Modelled from the spec: the deadline of [require.Eventually] is per
    task and counted from the instant its polling began (section 5); the
    timer does not fire before [ingressWait] has passed.  When it fires
    without success the goroutine ends with a failure. *)
Definition deadline_step (id : nat) (s : state) : option state :=
  match nth_error (phases s) id with
  | Some (Polling started _) =>
      if started + ingressWait <=? now s
      then finish id TimedOut (Some (NeverObserved id)) s
      else None
  | _ => None
  end.

Definition step (a : action) (s : state) : option state :=
  match a with
  | Tick =>
      Some (mkState (pc s) (now s + 1) (t1 s) (t2 s) (t4 s) (wg s)
                    (tasks s) (failed s) (report s) (trace s)
                    (phases s) (logs s))
  | Main ok => main_step ok s
  | Begin id new_request_ok => begin_step id new_request_ok s
  | Attempt id resp => attempt_step id resp s
  | Deadline id => deadline_step id s
  end.

(** A run: the actions of a schedule one after the other; [None] when
    one of them is not enabled. *)
Fixpoint run (sched : list action) (s : state) : option state :=
  match sched with
  | [] => Some s
  | a :: rest =>
      match step a s with
      | Some s' => run rest s'
      | None => None
      end
  end.

End Run.

Definition is_now (e : event) : bool :=
  match e with EvNow _ => true | _ => false end.

(** Number of instants read from the clock so far. *)
Definition instants (s : state) : nat :=
  List.length (filter is_now (trace s)).

(** The instants read from the clock so far, newest first. *)
Definition clock_reads (s : state) : list event :=
  filter is_now (trace s).

Definition resolved (g : goroutine) : Prop := snd g <> None.

(** Indices of the goroutines started so far, in order of dispatch. *)
Definition dispatched (s : state) : list Z := map fst (tasks s).

(** The submission has been made and has returned without error. *)
Definition after_apply (p : main_pc) : bool :=
  match p with
  | AtStart | AtKubeconfig | AtApply | Exited => false
  | _ => true
  end.

Definition is_dispatch (e : event) : bool :=
  match e with EvDispatch _ => true | _ => false end.

Definition is_resolution (e : event) : bool :=
  match e with EvResolved _ _ => true | _ => false end.

Definition is_failure (e : event) : bool :=
  match e with EvFailed _ => true | _ => false end.

(** An event of the verification: a dispatch, a resolution or a failed
    [require] of a goroutine. *)
Definition verification_event (e : event) : bool :=
  match e with
  | EvDispatch _ | EvResolved _ _ => true
  | EvFailed c => negb (main_cause c)
  | _ => false
  end.

(** What a step of a goroutine appends to the trace besides a resolution:
    failed requires of goroutines. *)
Definition quiet (e : event) : bool :=
  match e with
  | EvFailed c => negb (main_cause c)
  | _ => false
  end.

(** *** Invariants of the runs *)

(** The counter of the wait group is the number of goroutines still to
    start or to end; [t4] is taken only when there is none. *)
Definition join_inv (randPerm : list Z) (s : state) : Prop :=
  match pc s with
  | AtDispatch todo =>
      wg s = Z.of_nat (List.length todo + running (tasks s))
      /\ t4 s = None
      /\ Sample.getRandomList ruleCount randPerm = Some (dispatched s ++ todo)
  | AtWait =>
      wg s = Z.of_nat (running (tasks s))
      /\ t4 s = None
      /\ Sample.getRandomList ruleCount randPerm = Some (dispatched s)
  | AtT4 =>
      running (tasks s) = 0%nat
      /\ t4 s = None
      /\ Sample.getRandomList ruleCount randPerm = Some (dispatched s)
  | AtReport | Finished =>
      running (tasks s) = 0%nat
      /\ Sample.getRandomList ruleCount randPerm = Some (dispatched s)
  | _ => tasks s = [] /\ wg s = 0 /\ t4 s = None
  end.

(** Every dispatch in the trace is older than the return of the
    submission. *)
Definition dispatch_after_apply (tr : list event) : Prop :=
  forall later i earlier,
    tr = later ++ EvDispatch i :: earlier ->
    In (EvApplyReturned true) earlier.

Definition order_inv (s : state) : Prop :=
  dispatch_after_apply (trace s)
  /\ (after_apply (pc s) = true -> In (EvApplyReturned true) (trace s))
  /\ (tasks s <> [] -> In (EvApplyReturned true) (trace s)).

(** Which instants have been read at each point of the main goroutine. *)
Definition time_inv (s : state) : Prop :=
  match pc s with
  | AtStart => t1 s = None /\ clock_reads s = []
  | AtKubeconfig | AtApply | AtT2 =>
      exists a, t1 s = Some a /\ a <= now s
                /\ clock_reads s = [EvNow a]
  | AtProxyIP | AtSelect | AtDispatch _ | AtWait | AtT4 =>
      exists a b, t1 s = Some a /\ t2 s = Some b /\ a <= b <= now s
                  /\ clock_reads s = [EvNow b; EvNow a]
  | AtReport =>
      exists a b c, t1 s = Some a /\ t2 s = Some b /\ t4 s = Some c
                    /\ a <= b <= c
                    /\ clock_reads s = [EvNow c; EvNow b; EvNow a]
  | Finished =>
      exists a b c, t1 s = Some a /\ t2 s = Some b /\ t4 s = Some c
                    /\ a <= b <= c
                    /\ clock_reads s = [EvNow c; EvNow b; EvNow a]
                    /\ report s = Some (b - a, c - b)
  | Exited => True
  end.




End Harness.

(** *** The steps of a goroutine, by their effect *)

Module GoroutineSteps.

Import Probe Harness.

(** The clock moves on. *)
Definition tick_state (s : state) : state :=
  mkState (pc s) (now s + 1) (t1 s) (t2 s) (t4 s) (wg s) (tasks s)
          (failed s) (report s) (trace s) (phases s) (logs s).

(** Why the goroutine [id] may end with outcome [o], and the [require] that
    failed when it does so without success. *)
Inductive justified (ingressWait : Z) (s : state) (id : nat)
  : outcome -> option cause -> Prop :=
| JRequest :
    nth_error (phases s) id = Some Spawned ->
    justified ingressWait s id RequestError (Some (RequestNotBuilt id))
| JObserved started :
    nth_error (phases s) id = Some (Polling started true) ->
    justified ingressWait s id Succeeded None
| JDeadline started alive :
    nth_error (phases s) id = Some (Polling started alive) ->
    started + ingressWait <= now s ->
    justified ingressWait s id TimedOut (Some (NeverObserved id)).

(** The four things a step of a goroutine can do: enter the poll, stay in
    it after an attempt, lose its closure to a [require], or end. *)
Inductive goroutine_step (url : string) (ingressWait : Z) (s : state)
  : state -> Prop :=
| GEnter id :
    nth_error (phases s) id = Some Spawned ->
    unresolved id s = true ->
    goroutine_step url ingressWait s (set_phase id (Polling (now s) true) s)
| GRetry id started resp lines :
    nth_error (phases s) id = Some (Polling started true) ->
    unresolved id s = true ->
    condition url resp = (Return false, lines) ->
    goroutine_step url ingressWait s (add_logs lines s)
| GClosure id started resp lines :
    nth_error (phases s) id = Some (Polling started true) ->
    unresolved id s = true ->
    condition url resp = (FailNow, lines) ->
    goroutine_step url ingressWait s
                   (fail_closure id resp started (add_logs lines s))
| GFinish id o why lines s' :
    justified ingressWait s id o why ->
    finish id o why (add_logs lines s) = Some s' ->
    goroutine_step url ingressWait s s'.

End GoroutineSteps.

(** ** Concrete runs *)

Module Scenarios.

Import Probe Harness.

Definition proxy : string := "http://10.96.0.7".

(** A deadline of one minute. *)
Definition minute : Z := 60000.

(** The route answers at once. *)
Definition healthy (k : nat) : response :=
  DoResponse StatusOK {| content := "{ origin: 10.244.0.1 }";
                         read_err := None |}.

(** The connection is refused twice, then the route answers. *)
Definition flaky (k : nat) : response :=
  if (k <? 2)%nat then DoError "connection refused" else healthy k.

(** [rand.Perm] hands out the identity. *)
Definition identity : list Z := Sample.iota ruleCount.

(** The main goroutine up to [wg.Wait()], with the clock moving on during
    the submission and the lookup of the proxy. *)
Definition until_wait : list action :=
  [Main true; Main true; Tick; Tick; Main true; Main true; Tick;
   Main true; Main true]
  ++ repeat (Main true) 12 ++ [Main true].

(** The goroutine [id] enters its poll and observes the route, the even
    ones at once, the odd ones after two transport errors. *)
Definition resolve_one (id : nat) : list action :=
  Begin id true
  :: (if Nat.even id
      then [Attempt id (healthy 0)]
      else [Attempt id (flaky 0); Attempt id (flaky 1); Attempt id (flaky 2)]).

(** The twelve goroutines resolve. *)
Definition all_resolve : list action := flat_map resolve_one (seq 0 12).

Definition full_run : list action :=
  until_wait ++ all_resolve ++ [Tick; Main true; Main true; Main true].

Definition final : state :=
  Eval vm_compute in
    match run proxy minute identity full_run init with
    | Some s => s
    | None => init
    end.

(** A 200 answer whose body cannot be read. *)
Definition unreadable : response :=
  DoResponse StatusOK {| content := ""; read_err := Some "unexpected EOF"%string |}.



(** A deadline of three milliseconds. *)
Definition short : Z := 3.

(** Three goroutines in trouble: the first cannot build its request, the
    second meets a transport error and then an unreadable body, the third
    never gets an answer; the deadline ends the last two. *)
Definition troubled_run : list action :=
  until_wait
  ++ [Begin 0 false;
      Begin 1 true; Attempt 1 (DoError "connection refused"%string);
      Attempt 1 unreadable;
      Begin 2 true; Tick; Tick; Tick; Deadline 2; Deadline 1].

Definition troubled : state :=
  Eval vm_compute in
    match run proxy short identity troubled_run init with
    | Some s => s
    | None => init
    end.

End Scenarios.

(** ** Formatting and the generated manifest *)

Module Fmt.

Local Open Scope string_scope.

(** The decimal rendering of an [int], as the verb [%d] prints it. *)
Definition itoa (i : Z) : string := NilEmpty.string_of_int (Z.to_int i).

(** What [fmt] appends for operands no verb has consumed. *)
Fixpoint extra (args : list Z) : string :=
  match args with
  | [] => ""
  | [a] => "int=" ++ itoa a
  | a :: rest => "int=" ++ itoa a ++ ", " ++ extra rest
  end.

(** [fmt.Sprintf(format, args...)] for [int] operands and formats whose
    verbs are [%d] and [%%], the ones this file uses with integers.  A verb
    without operand prints [%!d(MISSING)], operands without verb are
    reported at the end. *)
Fixpoint Sprintf (format : string) (args : list Z) : string :=
  match format with
  | EmptyString =>
      match args with
      | [] => ""
      | _ => "%!(EXTRA " ++ extra args ++ ")"
      end
  | String "%" (String "d" rest) =>
      match args with
      | a :: args' => itoa a ++ Sprintf rest args'
      | [] => "%!d(MISSING)" ++ Sprintf rest []
      end
  | String "%" (String "%" rest) => String "%" (Sprintf rest args)
  | String c rest => String c (Sprintf rest args)
  end.

(** No verb starts in [s]. *)
Fixpoint plain (s : string) : bool :=
  match s with
  | EmptyString => true
  | String c rest => negb (Ascii.eqb c "%") && plain rest
  end.

(** [sub] occurs in [s]. *)
Definition occurs_in (sub s : string) : Prop :=
  exists pre post, s = pre ++ sub ++ post.

End Fmt.

Module Manifest.

Import Fmt.
Local Open Scope string_scope.

Definition nl : string := String (Ascii.ascii_of_nat 10) EmptyString.

(** A raw string literal, given by its lines. *)
Definition raw (lines : list string) : string := String.concat nl lines.

Definition ingressTpl : string :=
  raw [ "";
        "---";
        "apiVersion: networking.k8s.io/v1";
        "kind: Ingress";
        "metadata:";
        "  name: test-ingress-%d";
        "spec:";
        "  ingressClassName: kong";
        "  rules:";
        "  - host: example-%d.com";
        "    http:";
        "      paths:";
        "      - backend:";
        "          service:";
        "            name: httpbin";
        "            port:";
        "              number: 80";
        "        path: /get";
        "        pathType: Exact";
        "";
        "" ].

(** The document of rule [i]: [fmt.Sprintf(ingressTpl, i, i)]. *)
Definition ingress (i : Z) : string := Sprintf ingressTpl [i; i].

(** The [Host] header of the request that checks rule [i]. *)
Definition ruleHost (i : Z) : string := Sprintf "example-%d.com" [i].

(** [i++] on an [int]. *)
Definition incr (i : Z) : Z := GoInt.wrap64 (i + 1).

(** The loop [for i := 0; i < count; i++ { ingressYaml += ... }], from the
    state [(i, ingressYaml)]; [fuel] bounds the number of iterations. *)
Fixpoint ingressLoop (count : Z) (fuel : nat) (i : Z) (ingressYaml : string)
  : string :=
  match fuel with
  | O => ingressYaml
  | S fuel' =>
      if (i <? count)%Z
      then ingressLoop count fuel' (incr i) (ingressYaml ++ ingress i)
      else ingressYaml
  end.

(** The payload handed to [kubectl apply]. *)
Definition ingressYaml : string :=
  ingressLoop 10000 (Z.to_nat 10000) 0 "".

(** The pieces of [ingressTpl] around its two verbs. *)
Definition tplHead : string :=
  raw [ ""; "---"; "apiVersion: networking.k8s.io/v1"; "kind: Ingress";
        "metadata:"; "  name: test-ingress-" ].

Definition tplMiddle : string :=
  raw [ ""; "spec:"; "  ingressClassName: kong"; "  rules:"; "  - host: " ].

Definition tplTail : string :=
  raw [ ""; "    http:"; "      paths:"; "      - backend:";
        "          service:"; "            name: httpbin";
        "            port:"; "              number: 80";
        "        path: /get"; "        pathType: Exact"; ""; "" ].

(** The documents of the rules [0 .. count-1], one after the other. *)
Definition documents (count : Z) : string :=
  fold_right append "" (map ingress (Sample.iota count)).

End Manifest.

(** ** Views of a listener, field by field *)

Module BuilderView.

Import gatewayv1beta1 Builder.

Inductive field : Type :=
| FName | FHostname | FPort | FProtocol | FTLS | FAllowedRoutes.

Inductive fval : Type :=
| VString (s : string)
| VOptString (s : option string)
| VInt (z : Z)
| VPtr (p : option loc).

Definition view (f : field) (l : Listener) : fval :=
  match f with
  | FName => VString (Name l)
  | FHostname => VOptString (Hostname l)
  | FPort => VInt (Port l)
  | FProtocol => VString (Protocol l)
  | FTLS => VPtr (gatewayv1beta1.TLS l)
  | FAllowedRoutes => VPtr (AllowedRoutes l)
  end.

(** The field a setter assigns. *)
Definition writes (c : setter) : field :=
  match c with
  | CallWithPort _ => FPort
  | CallHTTP | CallHTTPS | CallTLS | CallTCP => FProtocol
  | CallWithHostname _ => FHostname
  | CallWithAllowedRoutes _ => FAllowedRoutes
  end.

Definition field_eqb (f g : field) : bool :=
  match f, g with
  | FName, FName | FHostname, FHostname | FPort, FPort
  | FProtocol, FProtocol | FTLS, FTLS
  | FAllowedRoutes, FAllowedRoutes => true
  | _, _ => false
  end.

End BuilderView.

(** ** Further invariants of the runs *)

Module HarnessInv.

Import Probe Harness.

(** Goroutines the loop still has to start. *)
Definition pending (p : main_pc) : nat :=
  match p with
  | AtDispatch todo => List.length todo
  | _ => 0%nat
  end.

(** The counter of the wait group counts the goroutines that have not yet
    called [wg.Done()]. *)
Definition counter_inv (s : state) : Prop :=
  wg s = Z.of_nat (pending (pc s) + running (tasks s)).

Definition has_failed (g : goroutine) : bool :=
  match snd g with
  | Some o => failure o
  | None => false
  end.

(** From [s] the test can run to its end. *)
Definition can_finish (url : string) (ingressWait : Z) (randPerm : list Z)
    (s : state) : Prop :=
  exists rest s',
    run url ingressWait randPerm rest s = Some s' /\ pc s' = Finished.

(** What the trace shows for each failed [require]. *)
Definition pinned (s : state) (c : cause) : Prop :=
  match c with
  | KubeconfigFailed | ProxyIPFailed | SelectorPanicked => pc s = Exited
  | ApplyFailed => pc s = Exited /\ In (EvApplyReturned false) (trace s)
  | RequestNotBuilt id => In (EvResolved id RequestError) (trace s)
  | BodyNotRead id resp => fatal resp /\ ~ transient resp
  | NeverObserved id => In (EvResolved id TimedOut) (trace s)
  end.

(** The [require] behind a resolution without success. *)
Definition blamed (s : state) (id : nat) (o : outcome) : Prop :=
  match o with
  | Succeeded => True
  | TimedOut => In (EvFailed (NeverObserved id)) (trace s)
  | RequestError => In (EvFailed (RequestNotBuilt id)) (trace s)
  end.

(** The test is marked as failed exactly for the failed requires of the
    trace, and each of them is accounted for. *)
Definition ledger_inv (s : state) : Prop :=
  failed s = existsb is_failure (trace s)
  /\ (forall c, In (EvFailed c) (trace s) -> pinned s c)
  /\ (In (EvApplyReturned false) (trace s) ->
      In (EvFailed ApplyFailed) (trace s))
  /\ (forall id o, In (EvResolved id o) (trace s) -> blamed s id o)
  /\ (pc s = Exited ->
      exists c, main_cause c = true /\ In (EvFailed c) (trace s)).

(** The goroutine [id] waits for its deadline with its closure gone. *)
Definition stuck (s : state) (id : nat) : Prop :=
  unresolved id s = true
  /\ exists started, nth_error (phases s) id = Some (Polling started false).

(** How the trace, the goroutines and their phases go together. *)
Definition link_inv (s : state) : Prop :=
  List.length (phases s) = List.length (tasks s)
  /\ (forall id o,
         In (EvResolved id o) (trace s) ->
         exists i, nth_error (tasks s) id = Some (i, Some o))
  /\ (forall id resp,
         In (EvFailed (BodyNotRead id resp)) (trace s) ->
         (exists started,
             nth_error (phases s) id = Some (Polling started false))
         /\ (unresolved id s = true
             \/ exists i, nth_error (tasks s) id = Some (i, Some TimedOut)))
  /\ (forall id started,
         nth_error (phases s) id = Some (Polling started false) ->
         exists resp, In (EvFailed (BodyNotRead id resp)) (trace s))
  /\ (forall id i o,
         nth_error (tasks s) id = Some (i, Some o) ->
         In (EvResolved id o) (trace s)).

End HarnessInv.

(** * Properties *)

Module GoIntFacts.

Import GoInt.

Lemma wrap64_small z : is_int z -> wrap64 z = z.
Proof.
  unfold is_int, min_int, max_int, wrap64, wrap. intros H.
  change (2 ^ (64 - 1)) with 9223372036854775808 in *.
  change (2 ^ 63) with 9223372036854775808 in *.
  change (2 ^ 64) with 18446744073709551616.
  rewrite Z.mod_small; lia.
Qed.

Lemma sub_one_exact n : is_int n -> 10 < n -> sub n 1 = n - 1.
Proof.
  intros H Hn. unfold sub. apply wrap64_small.
  unfold is_int, min_int, max_int in *.
  change (2 ^ 63) with 9223372036854775808 in *. lia.
Qed.

End GoIntFacts.

Module BuilderFacts.

Import gatewayv1beta1 Builder.

Lemma call_keeps_Name b c : Name (listener (call b c)) = Name (listener b).
Proof. destruct c; reflexivity. Qed.

Lemma chain_keeps_Name cs :
  forall b, Name (listener (chain cs b)) = Name (listener b).
Proof.
  unfold chain.
  induction cs as [|c cs IH]; intros b; simpl.
  - reflexivity.
  - rewrite IH. apply call_keeps_Name.
Qed.

(** C8: a listener built without any setter call holds Go's zero value in
    every field but [Name]: port 0, an empty protocol and nil pointers.
    [Build] hands back the stored struct as it is, no default of the
    gateway API is filled in. *)
Theorem Build_NewListener_zero_values :
  forall name : string,
    Build (NewListener name)
    = {| Name := name; Hostname := None; Port := 0; Protocol := "";
         gatewayv1beta1.TLS := None; AllowedRoutes := None |}
    /\ Protocol (Build (NewListener name)) <> HTTPProtocolType
    /\ Protocol (Build (NewListener name)) <> HTTPSProtocolType
    /\ Protocol (Build (NewListener name)) <> TLSProtocolType
    /\ Protocol (Build (NewListener name)) <> TCPProtocolType
    /\ ~ (1 <= Port (Build (NewListener name)) <= 65535).
Proof.
  intros name. simpl.
  repeat split; try discriminate. lia.
Qed.

(** C9: whatever setters are chained after [NewListener name], the built
    listener carries the name given at construction. *)
Theorem Build_chain_Name :
  forall (name : string) (cs : list setter),
    Name (Build (chain cs (NewListener name))) = name.
Proof.
  intros name cs. unfold Build. rewrite chain_keeps_Name. reflexivity.
Qed.

(** C10: [IntoSlice] returns a slice of length one whose only element is
    the listener [Build] returns. *)
Theorem IntoSlice_is_singleton_Build :
  forall b : ListenerBuilder,
    IntoSlice b = [Build b] /\ List.length (IntoSlice b) = 1%nat.
Proof.
  intros b. split; reflexivity.
Qed.

End BuilderFacts.

Module SampleFacts.

Import Sample.

Lemma in_iota n i : In i (iota n) <-> 0 <= i < n.
Proof.
  unfold iota. rewrite in_map_iff. split.
  - intros (k & <- & Hk). apply in_seq in Hk. lia.
  - intros H. exists (Z.to_nat i). split; [lia|].
    apply in_seq. lia.
Qed.

Lemma length_iota n : List.length (iota n) = Z.to_nat n.
Proof. unfold iota. now rewrite length_map, length_seq. Qed.

Lemma NoDup_iota n : NoDup (iota n).
Proof.
  unfold iota. apply Finite.Injective_map_NoDup.
  - intros a b H. lia.
  - apply seq_NoDup.
Qed.

Section Outcome.

Variables (n : Z) (p : list Z).
Hypothesis Hp : rand_Perm_returns n p.

Lemma perm_length : List.length p = Z.to_nat n.
Proof.
  destruct Hp as [_ H]. rewrite (Permutation_length H). apply length_iota.
Qed.

Lemma perm_NoDup : NoDup p.
Proof.
  destruct Hp as [_ H].
  apply (Permutation_NoDup (Permutation_sym H)), NoDup_iota.
Qed.

Lemma perm_in_range i : In i p -> in_range n i.
Proof.
  destruct Hp as [_ H]. intros Hi.
  apply in_iota. apply (Permutation_in _ H Hi).
Qed.

Lemma slice_to_perm hi :
  0 <= hi <= n -> slice_to p hi = Some (firstn (Z.to_nat hi) p).
Proof.
  intros H. unfold slice_to. rewrite perm_length.
  replace (0 <=? hi) with true by (symmetry; apply Z.leb_le; lia).
  replace (hi <=? Z.of_nat (Z.to_nat n)) with true
    by (symmetry; apply Z.leb_le; lia).
  reflexivity.
Qed.

End Outcome.

Lemma firstn_NoDup {A} (l : list A) k : NoDup l -> NoDup (firstn k l).
Proof.
  intros H. rewrite <- (firstn_skipn k l) in H.
  apply NoDup_app_remove_r in H. exact H.
Qed.

Lemma firstn_In {A} (l : list A) k x : In x (firstn k l) -> In x l.
Proof.
  intros H. rewrite <- (firstn_skipn k l). apply in_or_app. now left.
Qed.

Lemma distinct_le_length l : (distinct l <= List.length l)%nat.
Proof.
  unfold distinct. apply NoDup_incl_length.
  - apply NoDup_nodup.
  - intros x Hx. now apply nodup_In in Hx.
Qed.

Lemma distinct_ge_prefix l l' :
  NoDup l -> (List.length l <= distinct (l ++ l'))%nat.
Proof.
  intros H. unfold distinct. apply NoDup_incl_length; [exact H|].
  intros x Hx. apply nodup_In. apply in_or_app. now left.
Qed.

(** Below the threshold the permutation is not consulted and the pair
    [0, n] is returned. *)
Lemma getRandomList_small n p : n <= 10 -> getRandomList n p = Some [0; n].
Proof.
  intros H. unfold getRandomList.
  replace (n <=? 10) with true by (symmetry; apply Z.leb_le; lia).
  reflexivity.
Qed.

(** Above it the first ten entries of the permutation are kept and [0] and
    [n - 1] are appended. *)
Lemma getRandomList_large n p :
  GoInt.is_int n -> 10 < n -> rand_Perm_returns n p ->
  getRandomList n p = Some (firstn 10 p ++ [0; n - 1]).
Proof.
  intros Hi Hn Hp. unfold getRandomList.
  replace (n <=? 10) with false by (symmetry; apply Z.leb_gt; lia).
  rewrite (slice_to_perm n p Hp) by lia.
  rewrite GoIntFacts.sub_one_exact by assumption.
  reflexivity.
Qed.

(** Above the threshold the sample is within bounds, holds both boundary
    indices and has at most [min n 12] different indices. *)
Lemma getRandomList_large_in_bounds n p :
  GoInt.is_int n -> 10 < n -> rand_Perm_returns n p ->
  exists l,
    getRandomList n p = Some l
    /\ (forall i, In i l -> in_range n i)
    /\ In 0 l /\ In (n - 1) l
    /\ (distinct l <= Z.to_nat (Z.min n 12))%nat.
Proof.
  intros Hi Hn Hp. exists (firstn 10 p ++ [0; n - 1]).
  assert (Hin : forall i, In i (firstn 10 p ++ [0; n - 1]) -> in_range n i).
  { intros i H. apply in_app_or in H. destruct H as [H | H].
    - apply (perm_in_range n p Hp). eapply firstn_In; eassumption.
    - unfold in_range. simpl in H. destruct H as [<- | [<- | []]]; lia. }
  split; [now apply getRandomList_large|].
  split; [exact Hin|].
  split; [apply in_or_app; right; simpl; auto|].
  split; [apply in_or_app; right; simpl; auto|].
  rewrite Z2Nat.inj_min. apply Nat.min_glb.
  - rewrite <- (length_iota n). unfold distinct.
    apply NoDup_incl_length; [apply NoDup_nodup|].
    intros x Hx. apply nodup_In in Hx. apply in_iota. now apply Hin.
  - etransitivity; [apply distinct_le_length|].
    rewrite length_app, length_firstn, (perm_length n p Hp).
    change (Z.to_nat 12) with 12%nat.
    change (List.length [0; n - 1]) with 2%nat. lia.
Qed.

End SampleFacts.

Module SampleSelector.

Import Sample SampleFacts.

(** C1: on [n = 5] the selector returns the pair [0, 5], whatever the
    permutation: the second entry is [n] itself, past the last valid index,
    and the last index [n - 1 = 4] is not in the sample. *)
Theorem getRandomList_five_returns_n :
  forall p : list Z,
    getRandomList 5 p = Some [0; 5]
    /\ ~ in_range 5 5
    /\ ~ In (5 - 1) [0; 5].
Proof.
  intros p. split; [reflexivity|]. split.
  - unfold in_range. lia.
  - simpl. intros [H | [H | []]]; discriminate.
Qed.

(** C2, as stated, fails: with the identity permutation of [[0, 13)] the
    first ten entries already hold [0], which is appended once more, so
    the returned slice is not free of duplicates. *)
Lemma getRandomList_keeps_duplicates :
  ~ (forall (n : Z) (p l : list Z),
        12 < n -> rand_Perm_returns n p ->
        getRandomList n p = Some l -> NoDup l).
Proof.
  intros H.
  assert (Hp : rand_Perm_returns 13 (iota 13))
    by (split; [lia | apply Permutation_refl]).
  specialize (H 13 (iota 13) _ ltac:(lia) Hp eq_refl).
  inversion H as [|x l Hnotin _]; subst.
  apply Hnotin. simpl. tauto.
Qed.

(** C2, amended: for [n > 12] the selector keeps the first ten entries of
    the permutation, which are ten different indices of [[0, n)], and
    appends [0] and [n - 1] without removing duplicates: the slice has
    exactly twelve entries and between ten and twelve different indices. *)
Theorem getRandomList_large_sample :
  forall (n : Z) (p : list Z),
    GoInt.is_int n -> 12 < n -> rand_Perm_returns n p ->
    exists drawn : list Z,
      getRandomList n p = Some (drawn ++ [0; n - 1])
      /\ drawn = firstn 10 p
      /\ List.length drawn = 10%nat
      /\ NoDup drawn
      /\ (forall i, In i (drawn ++ [0; n - 1]) -> in_range n i)
      /\ List.length (drawn ++ [0; n - 1]) = 12%nat
      /\ (10 <= distinct (drawn ++ [0; n - 1]%Z) <= 12)%nat.
Proof.
  intros n p Hi Hn Hp.
  exists (firstn 10 p).
  assert (Hlen : List.length (firstn 10 p) = 10%nat).
  { rewrite length_firstn, (perm_length n p Hp). lia. }
  assert (Hnd : NoDup (firstn 10 p))
    by (apply firstn_NoDup, (perm_NoDup n p Hp)).
  assert (Hlen' : List.length (firstn 10 p ++ [0; n - 1]) = 12%nat)
    by (rewrite length_app, Hlen; reflexivity).
  split; [apply getRandomList_large; (assumption || lia)|].
  split; [reflexivity|].
  split; [exact Hlen|].
  split; [exact Hnd|].
  split.
  - intros i Hin. apply in_app_or in Hin. destruct Hin as [Hin | Hin].
    + apply (perm_in_range n p Hp). eapply firstn_In; eassumption.
    + unfold in_range. simpl in Hin. destruct Hin as [<- | [<- | []]]; lia.
  - split; [exact Hlen'|]. split.
    + rewrite <- Hlen at 1. apply distinct_ge_prefix. exact Hnd.
    + rewrite <- Hlen'. apply distinct_le_length.
Qed.

Lemma getRandomList_large_sample_witness :
  exists drawn : list Z,
    getRandomList 13 (iota 13) = Some (drawn ++ [0; 13 - 1])
    /\ drawn = firstn 10 (iota 13)
    /\ List.length drawn = 10%nat
    /\ NoDup drawn
    /\ (forall i, In i (drawn ++ [0; 13 - 1]) -> in_range 13 i)
    /\ List.length (drawn ++ [0; 13 - 1]) = 12%nat
    /\ (10 <= distinct (drawn ++ [0; 13 - 1]%Z) <= 12)%nat.
Proof.
  apply (getRandomList_large_sample 13 (iota 13)).
  - unfold GoInt.is_int, GoInt.min_int, GoInt.max_int. simpl. lia.
  - lia.
  - split; [lia | apply Permutation_refl].
Defined.

(** C3: for [1 <= n <= 12] the selector returns a slice and never panics.
    Up to [n = 10] the result does not depend on the permutation, no index
    is drawn; for [n = 11] and [n = 12] the ten entries it keeps are within
    the [n] entries [rand.Perm] returned, so the slice expression is in
    bounds.  The function has no loop. *)
Theorem getRandomList_small_never_panics :
  forall (n : Z) (p : list Z),
    1 <= n <= 12 -> rand_Perm_returns n p ->
    exists l : list Z,
      getRandomList n p = Some l
      /\ (n <= 10 -> forall p' : list Z, getRandomList n p' = Some l)
      /\ (10 < n ->
          exists drawn : list Z,
            slice_to p 10 = Some drawn
            /\ l = drawn ++ [0; n - 1]
            /\ (List.length drawn <= Z.to_nat n)%nat).
Proof.
  intros n p Hn Hp.
  assert (Hi : GoInt.is_int n).
  { unfold GoInt.is_int, GoInt.min_int, GoInt.max_int.
    change (2 ^ 63) with 9223372036854775808. lia. }
  destruct (Z_le_gt_dec n 10) as [Hs | Hl].
  - exists [0; n]. split; [now apply getRandomList_small|].
    split; [intros _ p'; now apply getRandomList_small | lia].
  - exists (firstn 10 p ++ [0; n - 1]).
    split; [apply getRandomList_large; (assumption || lia)|].
    split; [lia|]. intros _.
    exists (firstn 10 p).
    split; [apply (slice_to_perm n p Hp); lia|].
    split; [reflexivity|].
    rewrite length_firstn, (perm_length n p Hp). lia.
Qed.

Lemma getRandomList_small_never_panics_witness :
  exists l : list Z,
    getRandomList 11 (iota 11) = Some l
    /\ (11 <= 10 -> forall p' : list Z, getRandomList 11 p' = Some l)
    /\ (10 < 11 ->
        exists drawn : list Z,
          slice_to (iota 11) 10 = Some drawn
          /\ l = drawn ++ [0; 11 - 1]
          /\ (List.length drawn <= Z.to_nat 11)%nat).
Proof.
  apply (getRandomList_small_never_panics 11 (iota 11)).
  - lia.
  - split; [lia | apply Permutation_refl].
Defined.

End SampleSelector.

Module ProbeFacts.

Import Probe.

Lemma condition_transient url r :
  transient r -> exists logs, condition url r = (Return false, logs).
Proof. intros [err ->]. simpl. eauto. Qed.

Lemma condition_FailNow url r :
  fst (condition url r) = FailNow -> fatal r.
Proof.
  destruct r as [err | code body]; simpl; [discriminate|].
  destruct (Z.eqb_spec code StatusOK) as [-> | Hne]; [|discriminate].
  intros H. exists body. split; [reflexivity|].
  destruct (read_err body) as [e|]; [left; discriminate|].
  right. destruct (content body); [reflexivity|].
  simpl in H. discriminate.
Qed.

End ProbeFacts.

Module HarnessFacts.

Import Probe Harness GoroutineSteps.

Lemma running_app ts ts' :
  running (ts ++ ts') = (running ts + running ts')%nat.
Proof. unfold running. now rewrite filter_app, length_app. Qed.

Lemma resolve_at_spec o :
  forall ts id ts',
    resolve_at id o ts = Some ts' ->
    running ts = S (running ts') /\ map fst ts' = map fst ts.
Proof.
  induction ts as [|[i st] ts IH]; intros id ts' H.
  - destruct id; discriminate.
  - destruct id as [|id], st as [o'|]; simpl in H; try discriminate.
    + injection H as <-. split; reflexivity.
    + destruct (resolve_at id o ts) as [rest|] eqn:Hr; [|discriminate].
      injection H as <-.
      destruct (IH _ _ Hr) as [Hrun Hfst].
      split; [|simpl; now rewrite Hfst].
      unfold running in *. simpl. exact Hrun.
    + destruct (resolve_at id o ts) as [rest|] eqn:Hr; [|discriminate].
      injection H as <-.
      destruct (IH _ _ Hr) as [Hrun Hfst].
      split; [|simpl; now rewrite Hfst].
      unfold running in *. simpl. now rewrite Hrun.
Qed.

Lemma running_zero_resolved ts :
  running ts = 0%nat -> Forall resolved ts.
Proof.
  induction ts as [|[i st] ts IH]; intros H; [constructor|].
  unfold running in H. simpl in H.
  destruct st as [o|]; simpl in H; [|discriminate].
  constructor; [discriminate | now apply IH].
Qed.

(** What ending a goroutine changes. *)
Lemma finish_spec id o why s s' :
  finish id o why s = Some s' ->
  exists ts,
    resolve_at id o (tasks s) = Some ts
    /\ s' = mkState (pc s) (now s) (t1 s) (t2 s) (t4 s) (wg s - 1) ts
                    (failed s || is_some why) (report s)
                    (EvResolved id o :: failures why ++ trace s)
                    (phases s) (logs s).
Proof.
  unfold finish. destruct (resolve_at id o (tasks s)) as [ts|]; [|discriminate].
  intros [= <-]. now exists ts.
Qed.

(** Reduce the projections of an updated state. *)
Ltac proj :=
  cbn [pc now t1 t2 t4 wg tasks failed report trace phases logs
       goto emit fail_main set_phase add_logs fail_closure tick_state] in *.

(** The cases of a step of the main goroutine. *)
Ltac main_cases Hpc :=
  unfold main_step;
  match goal with
  | |- context [match pc ?s with _ => _ end] =>
      destruct (pc s) as [| | | | | |[|?i ?todo]| | | | |] eqn:Hpc
  end;
  try match goal with
      | |- context [if ?b then _ else _] => destruct b eqn:?
      end;
  try match goal with
      | |- context [match Sample.getRandomList ?n ?p with _ => _ end] =>
          destruct (Sample.getRandomList n p) eqn:?
      end;
  try match goal with
      | |- context [match t1 ?s with _ => _ end] =>
          destruct (t1 s) eqn:?, (t2 s) eqn:?, (t4 s) eqn:?
      end;
  try discriminate;
  intros [= <-]; proj.

(** Try the lemma [lem] with no, one or two new events. *)
Ltac grow lem H :=
  first [ apply (lem _ _ [] H); [reflexivity | ..]
        | eapply (lem _ _ [_] H); [reflexivity | ..]
        | eapply (lem _ _ [_; _] H); [reflexivity | ..] ].

Ltac split_all :=
  repeat match goal with
         | H : exists _, _ |- _ => destruct H
         | H : _ /\ _ |- _ => destruct H
         end.

Section Invariants.

Variable url : string.
Variable ingressWait : Z.
Variable randPerm : list Z.

Local Abbreviation step := (step url ingressWait randPerm).
Local Abbreviation run := (run url ingressWait randPerm).
Local Abbreviation goroutine_step := (goroutine_step url ingressWait).

(** A property that holds initially and is kept by every step holds
    after every run. *)
Lemma run_invariant (P : state -> Prop) :
  P init ->
  (forall a s s', P s -> step a s = Some s' -> P s') ->
  forall sched s, run sched init = Some s -> P s.
Proof.
  intros Hinit Hstep sched.
  generalize init Hinit.
  induction sched as [|a rest IH]; intros s0 H0 s Hrun; simpl in Hrun.
  - now injection Hrun as <-.
  - destruct (step a s0) as [s1|] eqn:Hs; [|discriminate].
    eapply IH; [eapply Hstep; eassumption | exact Hrun].
Qed.

(** Every step is a tick of the clock, a step of the main goroutine or
    one of the four steps of a goroutine. *)
Lemma step_cases a s s' :
  step a s = Some s' ->
  s' = tick_state s
  \/ (exists ok, main_step randPerm ok s = Some s')
  \/ goroutine_step s s'.
Proof.
  destruct a as [|ok|id ok|id resp|id]; simpl.
  - intros [= <-]. now left.
  - intros H. right. left. now exists ok.
  - unfold begin_step.
    destruct (nth_error (phases s) id) as [[|st alive]|] eqn:Hph;
      try discriminate.
    destruct ok.
    + destruct (unresolved id s) eqn:Hun; [|discriminate].
      intros [= <-]. right. right. now apply GEnter.
    + intros Hf. right. right.
      apply (GFinish _ _ _ id RequestError (Some (RequestNotBuilt id)) []);
        [now apply JRequest | exact Hf].
  - unfold attempt_step.
    destruct (nth_error (phases s) id) as [[|st [|]]|] eqn:Hph;
      try discriminate.
    destruct (unresolved id s) eqn:Hun; [|discriminate].
    destruct (condition url resp) as [[[|]|] lines] eqn:Hc.
    + intros Hf. right. right.
      apply (GFinish _ _ _ id Succeeded None lines);
        [now apply (JObserved _ _ _ st) | exact Hf].
    + intros [= <-]. right. right. now apply (GRetry _ _ _ id st resp).
    + intros [= <-]. right. right. now apply GClosure.
  - unfold deadline_step.
    destruct (nth_error (phases s) id) as [[|st alive]|] eqn:Hph;
      try discriminate.
    destruct (Z.leb_spec (st + ingressWait) (now s)) as [Hle|];
      [|discriminate].
    intros Hf. right. right.
    apply (GFinish _ _ _ id TimedOut (Some (NeverObserved id)) []);
      [now apply (JDeadline _ _ _ st alive) | exact Hf].
Qed.

Lemma run_invariant_cases (P : state -> Prop) :
  P init ->
  (forall s, P s -> P (tick_state s)) ->
  (forall ok s s', P s -> main_step randPerm ok s = Some s' -> P s') ->
  (forall s s', P s -> goroutine_step s s' -> P s') ->
  forall sched s, run sched init = Some s -> P s.
Proof.
  intros Hinit Htick Hmain Hgo. apply run_invariant; [exact Hinit|].
  intros a s s' HP Hstep.
  destruct (step_cases _ _ _ Hstep) as [-> | [[ok Hm] | Hg]]; eauto.
Qed.

Lemma join_inv_main ok s s' :
  join_inv randPerm s -> main_step randPerm ok s = Some s' ->
  join_inv randPerm s'.
Proof.
  unfold join_inv, dispatched. intros H Hs. revert H. revert Hs.
  main_cases Hpc; intros H; try tauto.
  - destruct H as (Ht & Hw & H4).
    rewrite Ht, Hw. unfold running. simpl. split; [lia | tauto].
  - destruct H as (Hw & H4 & Hl).
    rewrite app_nil_r in Hl. simpl in Hw. tauto.
  - destruct H as (Hw & H4 & Hl).
    rewrite running_app, map_app, <- app_assoc. simpl.
    unfold running at 2. simpl.
    split; [rewrite Hw; simpl; lia | tauto].
  - destruct H as (Hw & H4 & Hl).
    match goal with H : (wg s =? 0) = true |- _ => apply Z.eqb_eq in H end.
    split; [lia | tauto].
Qed.

Lemma join_inv_goroutine s s' :
  join_inv randPerm s -> goroutine_step s s' -> join_inv randPerm s'.
Proof.
  intros H Hg. destruct Hg as [id Hph Hun | id st resp lines Hph Hun Hc
                              | id st resp lines Hph Hun Hc
                              | id o why lines s' Hj Hf];
    try exact H.
  apply finish_spec in Hf. destruct Hf as (ts & Hr & ->).
  proj. destruct (resolve_at_spec _ _ _ _ Hr) as [Hrun Hfst].
  unfold join_inv, dispatched in *. proj.
  destruct (pc s) eqn:Hpc; rewrite ?Hfst;
    try (destruct H as (Ht & _); rewrite Ht in Hr;
         destruct id; discriminate);
    try (destruct H as (H0 & _); rewrite H0 in Hrun; discriminate).
  - destruct H as (Hw & H4 & Hl).
    split; [rewrite Hw, Hrun; lia | tauto].
  - destruct H as (Hw & H4 & Hl).
    split; [rewrite Hw, Hrun; lia | tauto].
Qed.

Lemma run_join_inv sched s :
  run sched init = Some s -> join_inv randPerm s.
Proof.
  apply run_invariant_cases.
  - unfold join_inv. simpl. auto.
  - intros s0 H. exact H.
  - intros ok s0 s1. apply join_inv_main.
  - apply join_inv_goroutine.
Qed.

(** A step of a goroutine needs a goroutine that has not resolved. *)
Lemma unresolved_running id s :
  unresolved id s = true -> running (tasks s) <> 0%nat.
Proof.
  unfold unresolved.
  destruct (nth_error (tasks s) id) as [g|] eqn:Hn; [|discriminate].
  intros Hg. apply nth_error_In in Hn.
  unfold running. intros H0. apply length_zero_iff_nil in H0.
  assert (Hin : In g (filter is_running (tasks s)))
    by (apply filter_In; now split).
  rewrite H0 in Hin. exact Hin.
Qed.

Lemma goroutine_running s s' :
  goroutine_step s s' -> running (tasks s) <> 0%nat.
Proof.
  intros [id Hph Hun | id st resp lines Hph Hun Hc
         | id st resp lines Hph Hun Hc | id o why lines s1 Hj Hf];
    try (now apply (unresolved_running id)).
  apply finish_spec in Hf. destruct Hf as (ts & Hr & _). proj.
  destruct (resolve_at_spec _ _ _ _ Hr) as [Hrun _]. lia.
Qed.

(** What a step of a goroutine leaves alone, and what it appends to the
    trace. *)
Lemma goroutine_frame s s' :
  goroutine_step s s' ->
  pc s' = pc s /\ now s' = now s /\ t1 s' = t1 s /\ t2 s' = t2 s
  /\ t4 s' = t4 s /\ report s' = report s
  /\ exists es,
      trace s' = es ++ trace s
      /\ forallb verification_event es = true
      /\ filter is_now es = []
      /\ filter is_dispatch es = [].
Proof.
  intros [id Hph Hun | id st resp lines Hph Hun Hc
         | id st resp lines Hph Hun Hc | id o why lines s1 Hj Hf].
  - repeat split; exists []; repeat split.
  - repeat split; exists []; repeat split.
  - repeat split; eexists [_]; repeat split.
  - apply finish_spec in Hf. destruct Hf as (ts & Hr & ->). proj.
    repeat split.
    exists (EvResolved id o :: failures why).
    destruct Hj; repeat split.
Qed.

Lemma no_dispatch_In es i :
  filter is_dispatch es = [] -> ~ In (EvDispatch i) es.
Proof.
  intros H Hin.
  assert (Hf : In (EvDispatch i) (filter is_dispatch es))
    by (apply filter_In; now split).
  rewrite H in Hf. exact Hf.
Qed.

(** The order of dispatches and submission is kept when the trace grows by
    events [es], a dispatch being added only after the submission. *)
Lemma order_grow s s' es :
  order_inv s ->
  trace s' = es ++ trace s ->
  (forall i, In (EvDispatch i) es ->
             es = [EvDispatch i] /\ after_apply (pc s) = true) ->
  (after_apply (pc s') = true ->
   after_apply (pc s) = true \/ In (EvApplyReturned true) es) ->
  (tasks s' <> [] -> tasks s <> [] \/ after_apply (pc s) = true) ->
  order_inv s'.
Proof.
  intros (HA & HB & HC) Htr He Hpc Hts. unfold order_inv. rewrite Htr.
  split; [|split].
  - intros later i earlier Heq.
    apply app_eq_app in Heq. destruct Heq as (l & [[H1 H2] | [H1 H2]]).
    + destruct l as [|x l].
      * simpl in H2. eapply (HA []). simpl. symmetry. exact H2.
      * injection H2 as <- H2.
        destruct (He i) as [Hes Hafter];
          [rewrite H1; apply in_or_app; right; now left|].
        rewrite Hes in H1. destruct later as [|y later].
        -- injection H1 as <-. simpl in H2. rewrite H2. now apply HB.
        -- injection H1 as _ H1. symmetry in H1.
           apply app_eq_nil in H1. destruct H1 as [_ H1]. discriminate.
    + eapply HA. exact H2.
  - intros H. apply in_or_app.
    destruct (Hpc H) as [H' | H']; [right; auto | now left].
  - intros H. apply in_or_app. right. destruct (Hts H); auto.
Qed.

Lemma order_inv_main ok s s' :
  order_inv s -> main_step randPerm ok s = Some s' -> order_inv s'.
Proof.
  intros H. main_cases Hpc; grow order_grow H; proj; rewrite ?Hpc; simpl;
    auto;
    intros j Hj; intuition (try discriminate);
    match goal with
    | H : EvDispatch _ = EvDispatch _ |- _ => injection H as ->
    end; auto.
Qed.

Lemma order_inv_goroutine s s' :
  order_inv s -> goroutine_step s s' -> order_inv s'.
Proof.
  intros H Hg.
  destruct (goroutine_frame _ _ Hg)
    as (Hpc & _ & _ & _ & _ & _ & es & Htr & _ & _ & Hnd).
  apply (order_grow _ _ es H Htr).
  - intros i Hi. now apply no_dispatch_In in Hi.
  - rewrite Hpc. auto.
  - intros Hts. left. intros Hnil.
    apply goroutine_running in Hg. rewrite Hnil in Hg. now apply Hg.
Qed.

Lemma run_order_inv sched s : run sched init = Some s -> order_inv s.
Proof.
  apply run_invariant_cases.
  - unfold order_inv, dispatch_after_apply. simpl.
    split; [|split; [discriminate | congruence]].
    intros [|e later] i earlier Heq; discriminate.
  - intros s0 H. exact H.
  - intros ok s0 s1. apply order_inv_main.
  - apply order_inv_goroutine.
Qed.

Lemma time_inv_main ok s s' :
  time_inv s -> main_step randPerm ok s = Some s' -> time_inv s'.
Proof.
  unfold time_inv, clock_reads. intros H Hs. revert H. revert Hs.
  main_cases Hpc; intros H; split_all; unfold Sub; simpl;
    repeat match goal with
           | H : ?x = _ |- context [?x] => rewrite H
           end;
    auto;
    try (repeat eexists; eauto; lia).
  exists x, x0, x1. repeat split; auto; try lia; congruence.
Qed.

Lemma time_inv_goroutine s s' :
  time_inv s -> goroutine_step s s' -> time_inv s'.
Proof.
  intros H Hg.
  destruct (goroutine_frame _ _ Hg)
    as (Hpc & Hnow & H1 & H2 & H4 & Hrep & es & Htr & _ & Hn & _).
  unfold time_inv, clock_reads in *.
  rewrite Hpc, Hnow, H1, H2, H4, Hrep, Htr, filter_app, Hn. exact H.
Qed.

Lemma run_time_inv sched s : run sched init = Some s -> time_inv s.
Proof.
  apply run_invariant_cases.
  - unfold time_inv, clock_reads. simpl. auto.
  - intros s0. unfold time_inv, clock_reads. proj.
    destruct (pc s0); auto; intros H; split_all;
      repeat eexists; eauto; lia.
  - intros ok s0 s1. apply time_inv_main.
  - apply time_inv_goroutine.
Qed.

Lemma resolve_at_length o :
  forall ts id ts',
    resolve_at id o ts = Some ts' -> List.length ts' = List.length ts.
Proof.
  intros ts id ts' H. destruct (resolve_at_spec _ _ _ _ H) as [_ Hfst].
  apply (f_equal (@List.length Z)) in Hfst.
  rewrite !length_map in Hfst. exact Hfst.
Qed.






End Invariants.

End HarnessFacts.

Module LedgerFacts.

Import Probe Harness GoroutineSteps HarnessInv HarnessFacts ProbeFacts.

Lemma fatal_not_transient r : fatal r -> ~ transient r.
Proof. intros (body & -> & _) [err H]. discriminate. Qed.

Lemma existsb_is_failure tr :
  existsb is_failure tr = true <-> exists c, In (EvFailed c) tr.
Proof.
  rewrite existsb_exists. split.
  - intros ([] & Hin & He); try discriminate. eauto.
  - intros [c Hin]. now exists (EvFailed c).
Qed.

Section Ledger.

Variable url : string.
Variable ingressWait : Z.
Variable randPerm : list Z.

Local Abbreviation run := (run url ingressWait randPerm).
Local Abbreviation goroutine_step := (goroutine_step url ingressWait).

(** The ledger is kept when the trace grows by events that are accounted
    for. *)
Lemma ledger_grow s s' es :
  ledger_inv s ->
  trace s' = es ++ trace s ->
  failed s' = failed s || existsb is_failure es ->
  (pc s = Exited -> pc s' = Exited) ->
  (forall c, In (EvFailed c) es -> pinned s' c) ->
  (In (EvApplyReturned false) es -> In (EvFailed ApplyFailed) es) ->
  (forall id o, In (EvResolved id o) es -> blamed s' id o) ->
  (pc s' = Exited ->
   pc s = Exited \/ exists c, main_cause c = true /\ In (EvFailed c) es) ->
  ledger_inv s'.
Proof.
  intros (Hf & Hp & Ha & Hr & He) Htr Hfail Hpc Hnp Hna Hnr Hne.
  assert (Hsub : forall e, In e (trace s) -> In e (trace s'))
    by (intros e Hin; rewrite Htr; apply in_or_app; now right).
  unfold ledger_inv. split; [|split; [|split; [|split]]].
  - rewrite Hfail, Htr, existsb_app, Hf. apply orb_comm.
  - intros c Hin. rewrite Htr in Hin. apply in_app_or in Hin.
    destruct Hin as [Hin | Hin]; [now apply Hnp|].
    specialize (Hp c Hin). destruct c; simpl in *; intuition.
  - intros Hin. rewrite Htr in Hin. apply in_app_or in Hin.
    destruct Hin as [Hin | Hin].
    + rewrite Htr. apply in_or_app. left. now apply Hna.
    + apply Hsub. now apply Ha.
  - intros id o Hin. rewrite Htr in Hin. apply in_app_or in Hin.
    destruct Hin as [Hin | Hin]; [now apply Hnr|].
    specialize (Hr id o Hin). destruct o; simpl in *; auto.
  - intros Hex. destruct (Hne Hex) as [Hold | (c & Hc & Hin)].
    + destruct (He Hold) as (c & Hc & Hin). exists c. auto.
    + exists c. split; [exact Hc|]. rewrite Htr. apply in_or_app. now left.
Qed.

(** The side conditions of [ledger_grow] for concrete new events. *)
Ltac ledger_side :=
  let Hin := fresh "Hin" in
  match goal with
  | |- _ = _ => simpl; now rewrite ?orb_false_r, ?orb_true_r
  | |- _ = Exited -> _ = Exited => try discriminate; tauto
  | |- forall c, In (EvFailed c) _ -> _ =>
      intros ? Hin; simpl in Hin; intuition (try discriminate);
      match goal with
      | H : EvFailed _ = EvFailed _ |- _ => injection H as <-
      end; simpl; auto
  | |- In (EvApplyReturned false) _ -> _ =>
      intros Hin; simpl in Hin; intuition (try discriminate); simpl; auto
  | |- forall id o, In (EvResolved id o) _ -> _ =>
      intros ? ? Hin; simpl in Hin; intuition (try discriminate);
      match goal with
      | H : EvResolved _ _ = EvResolved _ _ |- _ => injection H as <- <-
      end; simpl; auto
  | |- _ = Exited -> _ \/ _ =>
      first [ discriminate
            | intros _; right; eexists; split; [|left; reflexivity];
              reflexivity
            | tauto ]
  end.

Lemma ledger_inv_main ok s s' :
  ledger_inv s -> main_step randPerm ok s = Some s' -> ledger_inv s'.
Proof.
  intros H. main_cases Hpc; grow ledger_grow H; proj; rewrite ?Hpc;
    ledger_side.
Qed.

Lemma ledger_inv_goroutine s s' :
  ledger_inv s -> goroutine_step s s' -> ledger_inv s'.
Proof.
  intros H Hg.
  destruct Hg as [id Hph Hun | id st resp lines Hph Hun Hc
                 | id st resp lines Hph Hun Hc | id o why lines s1 Hj Hf].
  - apply (ledger_grow _ _ [] H); proj; ledger_side.
  - apply (ledger_grow _ _ [] H); proj; ledger_side.
  - apply (ledger_grow _ _ [EvFailed (BodyNotRead id resp)] H); proj;
      try ledger_side.
    assert (Hfatal : fatal resp)
      by (apply (condition_FailNow url); now rewrite Hc).
    split; [exact Hfatal | now apply fatal_not_transient].
  - apply finish_spec in Hf. destruct Hf as (ts & Hres & ->).
    apply (ledger_grow _ _ (EvResolved id o :: failures why) H); proj;
      try reflexivity; destruct Hj; ledger_side.
Qed.

Lemma run_ledger_inv sched s : run sched init = Some s -> ledger_inv s.
Proof.
  apply run_invariant_cases.
  - unfold ledger_inv. simpl. repeat split; try tauto; try discriminate.
  - intros s0 H. exact H.
  - intros ok s0 s1. apply ledger_inv_main.
  - apply ledger_inv_goroutine.
Qed.

End Ledger.

End LedgerFacts.

Module ErrorPolicy.

Import Probe Harness GoroutineSteps HarnessInv HarnessFacts LedgerFacts.
Import Scenarios.


(** The second goroutine is in its poll when [Do] returns an error: one
    warning is logged, the goroutine is still polling and the test is not
    marked as failed. *)
Example transport_error_is_absorbed :
  exists s s',
    run proxy minute identity (until_wait ++ [Begin 1 true]) init = Some s
    /\ step proxy minute identity
            (Attempt 1 (DoError "connection refused")) s = Some s'
    /\ failed s' = false
    /\ tasks s' = tasks s
    /\ phases s' = phases s
    /\ logs s' = [warning proxy "connection refused"].
Proof.
  eexists. eexists. split; [vm_compute; reflexivity|].
  split; [vm_compute; reflexivity|]. repeat split.
Qed.




End ErrorPolicy.

Module HarnessClaims.

Import Probe Harness HarnessFacts Scenarios.


(** After the first of the twelve goroutines has resolved the main
    goroutine is still blocked in [wg.Wait()]. *)
Example first_resolution_does_not_release :
  run proxy minute identity
      (until_wait ++ [Begin 0 true; Attempt 0 (healthy 0); Main true]) init
  = None.
Proof. vm_compute. reflexivity. Qed.




(** C5: in every run each dispatch of a verification task comes after the
    successful return of the submission; as long as the submission is in
    progress no task has been started. *)
Theorem dispatch_follows_submission :
  forall (url : string) (ingressWait : Z) (randPerm : list Z)
         (sched : list action) (s : state),
    run url ingressWait randPerm sched init = Some s ->
    (forall later i earlier,
        trace s = later ++ EvDispatch i :: earlier ->
        In (EvApplyReturned true) earlier)
    /\ (tasks s <> [] -> In (EvApplyReturned true) (trace s))
    /\ (pc s = AtApply -> tasks s = []).
Proof.
  intros url ingressWait randPerm sched s Hrun.
  destruct (run_order_inv _ _ _ _ _ Hrun) as (HA & _ & HC).
  pose proof (run_join_inv _ _ _ _ _ Hrun) as HJ.
  split; [exact HA|]. split; [exact HC|].
  intros Hpc. unfold join_inv in HJ. rewrite Hpc in HJ. apply HJ.
Qed.

Lemma dispatch_follows_submission_witness :
  (forall later i earlier,
      trace final = later ++ EvDispatch i :: earlier ->
      In (EvApplyReturned true) earlier)
  /\ (tasks final <> [] -> In (EvApplyReturned true) (trace final))
  /\ (pc final = AtApply -> tasks final = []).
Proof.
  apply (dispatch_follows_submission proxy minute identity full_run final).
  vm_compute. reflexivity.
Defined.

(** C6: once [t4] has been taken, a goroutine has been started for every
    entry of the sample and each of them has resolved; while one of them is
    still running the main goroutine cannot leave [wg.Wait()]. *)
Theorem verification_end_after_full_join :
  forall (url : string) (ingressWait : Z) (randPerm : list Z)
         (sched : list action) (s : state),
    run url ingressWait randPerm sched init = Some s ->
    (t4 s <> None ->
     Forall resolved (tasks s)
     /\ Sample.getRandomList ruleCount randPerm = Some (dispatched s))
    /\ (pc s = AtWait -> running (tasks s) <> 0%nat ->
        forall ok, step url ingressWait randPerm (Main ok) s = None).
Proof.
  intros url ingressWait randPerm sched s Hrun.
  pose proof (run_join_inv _ _ _ _ _ Hrun) as HJ.
  unfold join_inv in HJ. split.
  - intros H4.
    destruct (pc s); try (exfalso; apply H4; tauto).
    + destruct HJ as (Hr & Hl).
      split; [now apply running_zero_resolved | exact Hl].
    + destruct HJ as (Hr & Hl).
      split; [now apply running_zero_resolved | exact Hl].
  - intros Hpc Hrunning ok. rewrite Hpc in HJ.
    destruct HJ as (Hw & _). simpl. unfold main_step. rewrite Hpc.
    destruct (Z.eqb_spec (wg s) 0) as [Hz|]; [lia | reflexivity].
Qed.

Lemma verification_end_after_full_join_witness :
  (t4 final <> None ->
   Forall resolved (tasks final)
   /\ Sample.getRandomList ruleCount identity = Some (dispatched final))
  /\ (pc final = AtWait -> running (tasks final) <> 0%nat ->
      forall ok, step proxy minute identity (Main ok) final = None).
Proof.
  apply (verification_end_after_full_join
           proxy minute identity full_run final).
  vm_compute. reflexivity.
Defined.

End HarnessClaims.

(** * Further properties of the code *)

Module StringFacts.

Local Open Scope string_scope.

Lemma app_nil_r s : s ++ "" = s.
Proof. induction s as [|c s IH]; simpl; [reflexivity | now rewrite IH]. Qed.

Lemma app_assoc a b c : (a ++ b) ++ c = a ++ (b ++ c).
Proof. induction a as [|x a IH]; simpl; [reflexivity | now rewrite IH]. Qed.

Lemma length_app a b :
  String.length (a ++ b) = (String.length a + String.length b)%nat.
Proof. induction a as [|x a IH]; simpl; [reflexivity | now rewrite IH]. Qed.

Lemma app_inv_head a x y : a ++ x = a ++ y -> x = y.
Proof.
  induction a as [|c a IH]; simpl; intros H; [exact H|].
  injection H as H. now apply IH.
Qed.

(** Two splits of equal texts at the same position agree. *)
Lemma app_inv_length a :
  forall b x y,
    String.length a = String.length b -> a ++ x = b ++ y -> a = b /\ x = y.
Proof.
  induction a as [|c a IH]; intros [|d b] x y Hlen H; simpl in *;
    try discriminate.
  - now split.
  - injection H as -> H. injection Hlen as Hlen.
    destruct (IH _ _ _ Hlen H) as [-> ->]. now split.
Qed.

Lemma prefix_spec a :
  forall s, String.prefix a s = true <-> exists post, s = a ++ post.
Proof.
  induction a as [|c a IH]; intros s; simpl.
  - destruct s; split; eauto.
  - destruct s as [|d s]; simpl.
    + split; [discriminate | intros [post H]; discriminate].
    + destruct (Ascii.ascii_dec c d) as [<- | Hne].
      * rewrite IH. split; intros [post H]; exists post.
        -- now rewrite H.
        -- now injection H.
      * split; [discriminate|]. intros [post H]. injection H as H _.
        now elim Hne.
Qed.

End StringFacts.

Module FmtFacts.

Import Fmt StringFacts.
Local Open Scope string_scope.

Lemma itoa_inj i j : itoa i = itoa j -> i = j.
Proof.
  unfold itoa. intros H. apply DecimalZ.to_int_inj.
  assert (H' : Some (Z.to_int i) = Some (Z.to_int j))
    by (rewrite <- !NilEmpty.isi; now rewrite H).
  now injection H'.
Qed.

(** Text without verbs is copied. *)
Lemma Sprintf_plain pre :
  plain pre = true ->
  forall rest args, Sprintf (pre ++ rest) args = pre ++ Sprintf rest args.
Proof.
  induction pre as [|c pre IH]; intros Hp rest args; [reflexivity|].
  simpl in Hp. apply andb_prop in Hp. destruct Hp as [Hc Hp].
  change (String c pre ++ rest) with (String c (pre ++ rest)).
  change (String c pre ++ Sprintf rest args)
    with (String c (pre ++ Sprintf rest args)).
  rewrite <- (IH Hp rest args).
  destruct c as [[] [] [] [] [] [] [] []]; try discriminate Hc; reflexivity.
Qed.

Lemma Sprintf_d a rest args :
  Sprintf ("%d" ++ rest) (a :: args) = itoa a ++ Sprintf rest args.
Proof. reflexivity. Qed.

(** [sub] occurs in a concatenation that has it as a part. *)
Lemma occurs_in_parts (l : list string) sub :
  In sub l -> occurs_in sub (fold_right append "" l).
Proof.
  intros H. apply in_split in H. destruct H as (l1 & l2 & ->).
  exists (fold_right append "" l1), (fold_right append "" l2).
  induction l1 as [|x l1 IH]; simpl; [reflexivity|].
  now rewrite IH, app_assoc.
Qed.

End FmtFacts.

Module ManifestFacts.

Import Fmt Manifest StringFacts FmtFacts.
Local Open Scope string_scope.

Lemma ruleHost_eq i : ruleHost i = "example-" ++ itoa i ++ ".com".
Proof. reflexivity. Qed.

Lemma ingressTpl_split :
  ingressTpl
  = tplHead ++ "%d" ++ (tplMiddle ++ "example-") ++ "%d" ++ ".com" ++ tplTail.
Proof. vm_compute. reflexivity. Qed.

Lemma ingress_eq i :
  ingress i
  = tplHead ++ itoa i ++ (tplMiddle ++ "example-") ++ itoa i
    ++ ".com" ++ tplTail.
Proof.
  unfold ingress. rewrite ingressTpl_split.
  rewrite Sprintf_plain by (vm_compute; reflexivity).
  rewrite Sprintf_d.
  rewrite Sprintf_plain by (vm_compute; reflexivity).
  rewrite Sprintf_d.
  rewrite <- (app_nil_r (".com" ++ tplTail)) at 1.
  rewrite Sprintf_plain by (vm_compute; reflexivity).
  now rewrite app_nil_r.
Qed.

(** X1: the [Host] header of the request for rule [i] is [example-i.com] in
    decimal, and two rules have the same header only if they are the same
    rule. *)
Theorem ruleHost_injective :
  forall i j : Z,
    ruleHost i = "example-" ++ itoa i ++ ".com"
    /\ (ruleHost i = ruleHost j <-> i = j).
Proof.
  intros i j. split; [reflexivity|]. split; [|now intros ->].
  rewrite !ruleHost_eq. intros H.
  apply app_inv_head in H.
  assert (Hlen : String.length (itoa i) = String.length (itoa j)).
  { apply (f_equal String.length) in H. rewrite !length_app in H.
    simpl in H. lia. }
  apply itoa_inj. now destruct (app_inv_length _ _ _ _ Hlen H).
Qed.

(** X2: the document generated for rule [i] is the template with both verbs
    filled by [i]: it names the ingress [test-ingress-i] and routes the host
    of rule [i], with no formatting error left in it; different rules give
    different documents. *)
Theorem ingress_document :
  forall i j : Z,
    ingress i = tplHead ++ itoa i ++ tplMiddle ++ ruleHost i ++ tplTail
    /\ (ingress i = ingress j <-> i = j).
Proof.
  intros i j.
  assert (Hform : forall k,
             ingress k
             = tplHead ++ itoa k ++ tplMiddle ++ ruleHost k ++ tplTail).
  { intros k. rewrite ingress_eq, ruleHost_eq.
    now rewrite !app_assoc. }
  split; [apply Hform|]. split; [|now intros ->].
  rewrite !Hform, !ruleHost_eq. intros H.
  apply app_inv_head in H.
  assert (Hlen : String.length (itoa i) = String.length (itoa j)).
  { apply (f_equal String.length) in H. rewrite !length_app in H.
    simpl in H. lia. }
  apply itoa_inj. now destruct (app_inv_length _ _ _ _ Hlen H).
Qed.

(** The loop appends the documents of the rules from [i] on. *)
Lemma ingressLoop_spec count :
  count <= GoInt.max_int ->
  forall fuel i acc,
    0 <= i -> i + Z.of_nat fuel = count ->
    ingressLoop count fuel i acc
    = acc ++ fold_right append ""
               (map ingress (map (fun k => i + Z.of_nat k)%Z (seq 0 fuel))).
Proof.
  intros Hmax.
  induction fuel as [|fuel IH]; intros i acc Hi Hsum.
  - simpl. now rewrite app_nil_r.
  - cbn [ingressLoop].
    replace (i <? count)%Z with true by (symmetry; apply Z.ltb_lt; lia).
    assert (Hincr : incr i = (i + 1)%Z).
    { unfold incr. apply GoIntFacts.wrap64_small.
      unfold GoInt.is_int, GoInt.min_int, GoInt.max_int in *.
      change (2 ^ 63)%Z with 9223372036854775808%Z in *. lia. }
    rewrite Hincr, IH by lia.
    rewrite app_assoc. f_equal.
    cbn [seq map fold_right]. rewrite Z.add_0_r. f_equal.
    rewrite <- seq_shift, (map_map S). f_equal. f_equal.
    apply map_ext. intros k. lia.
Qed.

Lemma ingressYaml_documents : ingressYaml = documents 10000.
Proof.
  unfold ingressYaml, documents, Sample.iota.
  rewrite ingressLoop_spec.
  - cbn [append]. reflexivity.
  - unfold GoInt.max_int. change (2 ^ 63)%Z with 9223372036854775808%Z. lia.
  - lia.
  - rewrite Z2Nat.id; lia.
Qed.

Lemma ingress_in_ingressYaml i :
  0 <= i < 10000 -> occurs_in (ingress i) ingressYaml.
Proof.
  intros Hi. rewrite ingressYaml_documents. unfold documents.
  apply occurs_in_parts, in_map, SampleFacts.in_iota. exact Hi.
Qed.

(** X3: the payload submitted is the documents of the rules 0 to 9999 one
    after the other, so the document of every rule occurs in it. *)
Theorem ingressYaml_holds_every_rule :
  ingressYaml = documents 10000
  /\ forall i : Z, 0 <= i < 10000 -> occurs_in (ingress i) ingressYaml.
Proof.
  split; [apply ingressYaml_documents|].
  intros i Hi. now apply ingress_in_ingressYaml.
Qed.

Lemma ingressYaml_holds_every_rule_witness :
  occurs_in (ingress 9999) ingressYaml.
Proof.
  apply (proj2 ingressYaml_holds_every_rule 9999%Z). lia.
Defined.

End ManifestFacts.

Module ProbeVerdicts.

Import Fmt Probe StringFacts.
Local Open Scope string_scope.

Lemma Contains_spec sub :
  forall s, Contains s sub = true <-> occurs_in sub s.
Proof.
  unfold occurs_in.
  induction s as [|c s IH]; cbn [Contains]; rewrite orb_true_iff, prefix_spec.
  - split.
    + intros [[post H] | H]; [|discriminate]. now exists "", post.
    + intros (pre & post & H). left. destruct pre; [now exists post|].
      discriminate.
  - rewrite IH. split.
    + intros [[post H] | (pre & post & H)].
      * now exists "", post.
      * exists (String c pre), post. simpl. now rewrite H.
    + intros (pre & post & H). destruct pre as [|d pre].
      * left. now exists post.
      * right. injection H as _ H. now exists pre, post.
Qed.

(** X4: one attempt of the poll reports the route as observed exactly when
    the answer has status 200, its body was read without error and the text
    [origin] occurs in it; it fails the test exactly on a 200 answer whose
    body could not be read or is empty; and it logs exactly when [Do]
    returned an error. *)
Theorem condition_verdicts :
  forall (url : string) (r : response),
    (fst (condition url r) = Return true
     <-> exists text, r = DoResponse StatusOK (mkRead text None)
                      /\ occurs_in "origin" text)
    /\ (fst (condition url r) = FailNow <-> fatal r)
    /\ (snd (condition url r) <> [] <-> transient r).
Proof.
  intros url r. split; [|split].
  - split.
    + destruct r as [err | code [text rerr]]; simpl; [discriminate|].
      destruct (Z.eqb_spec code StatusOK) as [-> | Hne]; [|discriminate].
      destruct rerr as [e|]; [discriminate|].
      destruct text as [|c text]; [discriminate|].
      cbn [String.length Nat.add]. intros H.
      exists (String c text). split; [reflexivity|].
      apply Contains_spec.
      destruct (Contains (String c text) "origin"); [reflexivity|].
      simpl in H. discriminate.
    + intros (text & -> & Hocc). simpl.
      apply Contains_spec in Hocc. rewrite Hocc.
      destruct text as [|c text]; [discriminate Hocc | reflexivity].
  - split; [apply ProbeFacts.condition_FailNow|].
    intros ([text rerr] & -> & Hbad). simpl in *.
    destruct rerr as [e|]; [reflexivity|].
    destruct Hbad as [Hbad | ->]; [now elim Hbad | reflexivity].
  - split.
    + destruct r as [err | code [text rerr]]; simpl.
      * intros _. now exists err.
      * destruct (code =? StatusOK)%Z; [|now intros H].
        destruct rerr; [now intros H|].
        destruct (0 <? Z.of_nat (String.length text))%Z; now intros H.
    + intros [err ->]. simpl. discriminate.
Qed.

End ProbeVerdicts.

Module BuilderMore.

Import gatewayv1beta1 Builder BuilderView.

(** A setter leaves every field it does not assign as it was. *)
Lemma call_frame c f b :
  writes c <> f -> view f (listener (call b c)) = view f (listener b).
Proof.
  destruct c, f; simpl; intros H; try reflexivity; now elim H.
Qed.

(** What a setter assigns does not depend on the builder it is called on. *)
Lemma call_assigns c b b' :
  view (writes c) (listener (call b c)) = view (writes c) (listener (call b' c)).
Proof. destruct c; reflexivity. Qed.

Lemma chain_frame f cs :
  forall b,
    (forall c, In c cs -> writes c <> f) ->
    view f (listener (chain cs b)) = view f (listener b).
Proof.
  unfold chain.
  induction cs as [|c cs IH]; intros b H; simpl; [reflexivity|].
  rewrite IH by (intros c' Hc'; apply H; now right).
  apply call_frame, H. now left.
Qed.

(** X5: [WithPort] keeps the low 32 bits of its argument: the stored port is
    always an [int32] that differs from the argument by a multiple of
    [2^32], and it is the argument itself when that fits an [int32]. *)
Theorem WithPort_keeps_int32 :
  forall (port : Z) (b : ListenerBuilder),
    let stored := Port (Build (WithPort port b)) in
    - 2 ^ 31 <= stored < 2 ^ 31
    /\ (stored - port) mod 2 ^ 32 = 0
    /\ (- 2 ^ 31 <= port < 2 ^ 31 -> stored = port).
Proof.
  intros port b. simpl. unfold PortNumber, GoInt.wrap32, GoInt.wrap.
  change (2 ^ (32 - 1)) with 2147483648.
  change (2 ^ 31) with 2147483648. change (2 ^ 32) with 4294967296.
  pose proof (Z.mod_pos_bound (port + 2147483648) 4294967296 ltac:(lia)) as Hb.
  pose proof (Z.div_mod (port + 2147483648) 4294967296 ltac:(lia)) as Hd.
  split; [lia|]. split.
  - replace ((port + 2147483648) mod 4294967296 - 2147483648 - port)
      with (- ((port + 2147483648) / 4294967296) * 4294967296) by lia.
    apply Z.mod_mul. lia.
  - intros Hp. rewrite Z.mod_small; lia.
Qed.

Lemma WithPort_keeps_int32_witness :
  Port (Build (WithPort 8443 (NewListener "https"))) = 8443.
Proof.
  apply (proj2 (proj2 (WithPort_keeps_int32 8443 (NewListener "https")))).
  lia.
Defined.

(** X6: no chain of setters assigns the TLS configuration: the listener
    built from [NewListener] always has a nil [TLS]. *)
Theorem chain_never_sets_TLS :
  forall (name : string) (cs : list setter),
    gatewayv1beta1.TLS (Build (chain cs (NewListener name))) = None.
Proof.
  intros name cs.
  assert (H : view FTLS (listener (chain cs (NewListener name)))
              = view FTLS (listener (NewListener name))).
  { apply chain_frame. intros c _. destruct c; discriminate. }
  simpl in H. now injection H.
Qed.

(** X7: the last call that assigns a field decides it: when no later call
    of the chain writes the field of [c], the built listener holds in that
    field what [c] assigns, whatever was called before. *)
Theorem last_setter_wins :
  forall (before after : list setter) (c : setter) (b : ListenerBuilder),
    (forall c', In c' after -> writes c' <> writes c) ->
    view (writes c) (Build (chain (before ++ c :: after) b))
    = view (writes c) (Build (call b c)).
Proof.
  intros before after c b H. unfold Build, chain.
  rewrite fold_left_app. simpl.
  change (fold_left call after ?x) with (chain after x).
  rewrite chain_frame by exact H.
  apply call_assigns.
Qed.

Lemma last_setter_wins_witness :
  view FProtocol
       (Build (chain ([CallHTTP; CallWithPort 80] ++ CallHTTPS
                        :: [CallWithPort 443; CallWithHostname "kong.test"])
                     (NewListener "l")))
  = view FProtocol (Build (call (NewListener "l") CallHTTPS)).
Proof.
  apply (last_setter_wins [CallHTTP; CallWithPort 80]
                          [CallWithPort 443; CallWithHostname "kong.test"]
                          CallHTTPS (NewListener "l")).
  intros c' [<- | [<- | []]]; discriminate.
Defined.

(** X8: of two setter calls in a row, the later replaces the earlier when
    both assign the same field, and otherwise their order does not
    matter. *)
Theorem setters_overwrite_or_commute :
  forall (c1 c2 : setter) (b : ListenerBuilder),
    (writes c1 = writes c2 -> call (call b c1) c2 = call b c2)
    /\ (writes c1 <> writes c2 ->
        call (call b c1) c2 = call (call b c2) c1).
Proof.
  intros c1 c2 b. split; intros H;
    destruct c1, c2; simpl in H;
    try discriminate H; try (now elim H); reflexivity.
Qed.

Lemma setters_overwrite_or_commute_witness :
  call (call (NewListener "l") CallHTTP) (CallWithPort 80)
  = call (call (NewListener "l") (CallWithPort 80)) CallHTTP.
Proof.
  apply (proj2 (setters_overwrite_or_commute
                  CallHTTP (CallWithPort 80) (NewListener "l"))).
  discriminate.
Defined.

End BuilderMore.

Module SampleMore.

Import Sample SampleFacts.

(** X9: above the threshold the sample is free of repeated indices exactly
    when neither [0] nor [n - 1] is among the ten entries drawn, and this
    is possible only for [n >= 12]: for [n = 11] every sample repeats an
    index. *)
Theorem getRandomList_NoDup_iff :
  forall (n : Z) (p l : list Z),
    GoInt.is_int n -> 10 < n -> rand_Perm_returns n p ->
    getRandomList n p = Some l ->
    (NoDup l <-> ~ In 0 (firstn 10 p) /\ ~ In (n - 1) (firstn 10 p))
    /\ (NoDup l -> 12 <= n).
Proof.
  intros n p l Hi Hn Hp Hl.
  rewrite (getRandomList_large n p Hi Hn Hp) in Hl.
  assert (Hl' : l = firstn 10 p ++ [0; n - 1]) by congruence.
  clear Hl. subst l.
  assert (Hlen : List.length (firstn 10 p ++ [0; n - 1]) = 12%nat).
  { rewrite length_app, length_firstn, (perm_length n p Hp).
    change (List.length [0; n - 1]) with 2%nat. lia. }
  split.
  - split.
    + intros Hnd. split.
      * apply NoDup_remove_2 in Hnd. intros H. apply Hnd.
        apply in_or_app. now left.
      * assert (Heq : firstn 10 p ++ [0; n - 1]
                      = (firstn 10 p ++ [0]) ++ [n - 1])
          by (now rewrite <- List.app_assoc).
        rewrite Heq in Hnd. apply NoDup_remove_2 in Hnd.
        intros H. apply Hnd. rewrite app_nil_r. apply in_or_app. now left.
    + intros [H0 Hlast]. apply NoDup_app.
      * apply firstn_NoDup, (perm_NoDup n p Hp).
      * constructor; [|constructor; [intros [] | constructor]].
        intros [H | []]. lia.
      * intros a Ha [<- | [<- | []]]; auto.
  - intros Hnd.
    assert (Hle : (List.length (firstn 10 p ++ [0; n - 1]%Z)
                   <= List.length (iota n))%nat).
    { apply NoDup_incl_length; [exact Hnd|].
      intros i Hin. apply in_iota.
      apply in_app_or in Hin. destruct Hin as [Hin | Hin].
      - apply (perm_in_range n p Hp). eapply firstn_In; eassumption.
      - simpl in Hin. destruct Hin as [<- | [<- | []]]; lia. }
    rewrite Hlen, length_iota in Hle. lia.
Qed.

Lemma getRandomList_NoDup_iff_witness :
  (NoDup [1; 2; 3; 4; 5; 6; 7; 8; 9; 10; 0; 13]
   <-> ~ In 0 (firstn 10 [1; 2; 3; 4; 5; 6; 7; 8; 9; 10; 11; 12; 13; 0])
       /\ ~ In (14 - 1)
               (firstn 10 [1; 2; 3; 4; 5; 6; 7; 8; 9; 10; 11; 12; 13; 0]))
  /\ (NoDup [1; 2; 3; 4; 5; 6; 7; 8; 9; 10; 0; 13] -> 12 <= 14).
Proof.
  apply (getRandomList_NoDup_iff
           14 [1; 2; 3; 4; 5; 6; 7; 8; 9; 10; 11; 12; 13; 0]).
  - unfold GoInt.is_int, GoInt.min_int, GoInt.max_int. simpl. lia.
  - lia.
  - split; [lia|]. apply Permutation_sym.
    exact (Permutation_cons_append
             [1; 2; 3; 4; 5; 6; 7; 8; 9; 10; 11; 12; 13] 0).
  - reflexivity.
Defined.

End SampleMore.

Module HarnessMore.

Import Probe Harness GoroutineSteps HarnessInv HarnessFacts LedgerFacts.
Import Scenarios.

Lemma running_started i : running [(i, None)] = 1%nat.
Proof. reflexivity. Qed.

(** Some goroutine that is still running can resolve. *)
Lemma running_can_resolve o :
  forall ts, running ts <> 0%nat -> exists id ts', resolve_at id o ts = Some ts'.
Proof.
  induction ts as [|[i st] ts IH]; intros H; [now elim H|].
  destruct st as [o'|].
  - destruct IH as (id & ts' & Hr); [exact H|].
    exists (S id), ((i, Some o') :: ts'). simpl. now rewrite Hr.
  - exists 0%nat, ((i, Some o) :: ts). reflexivity.
Qed.

(** Resolving the goroutine [id] changes its entry and no other. *)
Lemma resolve_at_nth o :
  forall ts id ts',
    resolve_at id o ts = Some ts' ->
    (exists i, nth_error ts id = Some (i, None)
               /\ nth_error ts' id = Some (i, Some o))
    /\ forall j, j <> id -> nth_error ts' j = nth_error ts j.
Proof.
  induction ts as [|[i st] ts IH]; intros id ts' H.
  - destruct id; discriminate.
  - destruct id as [|id], st as [o'|]; simpl in H; try discriminate.
    + injection H as <-. split; [now exists i|].
      intros [|j] Hj; [now elim Hj | reflexivity].
    + destruct (resolve_at id o ts) as [rest|] eqn:Hr; [|discriminate].
      injection H as <-. destruct (IH _ _ Hr) as [Hsame Hother].
      split; [exact Hsame|].
      intros [|j] Hj; [reflexivity | simpl; apply Hother; lia].
    + destruct (resolve_at id o ts) as [rest|] eqn:Hr; [|discriminate].
      injection H as <-. destruct (IH _ _ Hr) as [Hsame Hother].
      split; [exact Hsame|].
      intros [|j] Hj; [reflexivity | simpl; apply Hother; lia].
Qed.

Lemma replace_at_length ph :
  forall l id, List.length (replace_at id ph l) = List.length l.
Proof.
  induction l as [|x l IH]; intros [|id]; simpl; auto.
Qed.

Lemma replace_at_same ph :
  forall l id x,
    nth_error l id = Some x -> nth_error (replace_at id ph l) id = Some ph.
Proof.
  induction l as [|y l IH]; intros [|id] x H; simpl in *;
    try discriminate; eauto.
Qed.

Lemma replace_at_other ph :
  forall l id j, j <> id -> nth_error (replace_at id ph l) j = nth_error l j.
Proof.
  induction l as [|y l IH]; intros [|id] [|j] H; simpl; auto;
    try (now elim H).
Qed.

Lemma nth_error_snoc {A} (l : list A) (x y : A) j :
  nth_error (l ++ [x]) j = Some y ->
  nth_error l j = Some y \/ (j = List.length l /\ y = x).
Proof.
  intros H. destruct (Nat.lt_ge_cases j (List.length l)) as [Hlt | Hge].
  - left. now rewrite nth_error_app1 in H.
  - right. rewrite nth_error_app2 in H by exact Hge.
    destruct (j - List.length l)%nat as [|k] eqn:Hk; simpl in H.
    + injection H as <-. split; [lia | reflexivity].
    + destruct k; discriminate.
Qed.

Lemma nth_error_keep {A} (l : list A) (x y : A) j :
  nth_error l j = Some y -> nth_error (l ++ [x]) j = Some y.
Proof.
  intros H. rewrite nth_error_app1; [exact H|].
  apply nth_error_Some. congruence.
Qed.

Section Invariants.

Variable url : string.
Variable ingressWait : Z.
Variable randPerm : list Z.

Local Abbreviation step := (step url ingressWait randPerm).
Local Abbreviation run := (run url ingressWait randPerm).
Local Abbreviation goroutine_step := (goroutine_step url ingressWait).

Lemma counter_inv_main ok s s' :
  counter_inv s -> main_step randPerm ok s = Some s' -> counter_inv s'.
Proof.
  unfold counter_inv. intros H Hs. revert H. revert Hs.
  main_cases Hpc; simpl; intros H;
    rewrite ?running_app, ?running_started; simpl; lia.
Qed.

Lemma counter_inv_goroutine s s' :
  counter_inv s -> goroutine_step s s' -> counter_inv s'.
Proof.
  unfold counter_inv. intros H Hg.
  destruct Hg as [id Hph Hun | id st resp lines Hph Hun Hc
                 | id st resp lines Hph Hun Hc | id o why lines s1 Hj Hf];
    try exact H.
  apply finish_spec in Hf. destruct Hf as (ts & Hres & ->). proj.
  destruct (resolve_at_spec _ _ _ _ Hres) as [Hrun _]. lia.
Qed.

Lemma run_counter_inv sched s : run sched init = Some s -> counter_inv s.
Proof.
  apply run_invariant_cases.
  - reflexivity.
  - intros s0 H. exact H.
  - intros ok s0 s1. apply counter_inv_main.
  - apply counter_inv_goroutine.
Qed.

(** The links are kept when the main goroutine appends events of its
    own. *)
Lemma link_keep s s' es :
  link_inv s ->
  trace s' = es ++ trace s ->
  forallb (fun e => negb (is_resolution e) && negb (quiet e)) es = true ->
  tasks s' = tasks s ->
  phases s' = phases s ->
  link_inv s'.
Proof.
  intros (Hlen & Hres & Hbody & Hdead & Hdone) Htr Hes Hts Hph.
  assert (Hold : forall e, In e (trace s') ->
                           is_resolution e || quiet e = true ->
                           In e (trace s)).
  { intros e Hin He. rewrite Htr in Hin. apply in_app_or in Hin.
    destruct Hin as [Hin | Hin]; [|exact Hin].
    rewrite forallb_forall in Hes. specialize (Hes e Hin).
    destruct (is_resolution e), (quiet e); discriminate. }
  assert (Hsub : forall e, In e (trace s) -> In e (trace s'))
    by (intros e Hin; rewrite Htr; apply in_or_app; now right).
  unfold link_inv, unresolved in *. rewrite Hts, Hph.
  split; [|split; [|split; [|split]]].
  - exact Hlen.
  - intros id o Hin. apply Hres, Hold; [exact Hin | reflexivity].
  - intros id resp Hin. apply (Hbody id resp), Hold; [exact Hin | reflexivity].
  - intros id started Hp. destruct (Hdead _ _ Hp) as [r Hr]. eauto.
  - intros id j o Hn. eauto.
Qed.

(** The links are kept when a goroutine is started. *)
Lemma link_dispatch s s' i :
  link_inv s ->
  trace s' = EvDispatch i :: trace s ->
  tasks s' = tasks s ++ [(i, None)] ->
  phases s' = phases s ++ [Spawned] ->
  link_inv s'.
Proof.
  intros (Hlen & Hres & Hbody & Hdead & Hdone) Htr Hts Hph.
  unfold link_inv, unresolved in *. rewrite Htr, Hts, Hph.
  split; [|split; [|split; [|split]]].
  - rewrite !length_app, Hlen. reflexivity.
  - intros id o [Hin | Hin]; [discriminate|].
    destruct (Hres _ _ Hin) as [j Hj]. exists j.
    now apply nth_error_keep.
  - intros id resp [Hin | Hin]; [discriminate|].
    destruct (Hbody _ _ Hin) as [[st Hst] Hcase]. split.
    + exists st. now apply nth_error_keep.
    + destruct Hcase as [Hun | [j Hj]].
      * left.
        destruct (nth_error (tasks s) id) as [g|] eqn:Hg; [|discriminate].
        now rewrite (nth_error_keep _ _ _ _ Hg).
      * right. exists j. now apply nth_error_keep.
  - intros id started Hp. apply nth_error_snoc in Hp.
    destruct Hp as [Hp | [_ Hp]]; [|discriminate].
    destruct (Hdead _ _ Hp) as [r Hr]. exists r. now right.
  - intros id j o Hn. apply nth_error_snoc in Hn.
    destruct Hn as [Hn | [_ Hn]]; [|discriminate].
    right. eauto.
Qed.

Lemma link_inv_main ok s s' :
  link_inv s -> main_step randPerm ok s = Some s' -> link_inv s'.
Proof.
  intros H. main_cases Hpc;
    first [ eapply (link_dispatch _ _ _ H); reflexivity
          | grow link_keep H; reflexivity ].
Qed.

Lemma link_inv_goroutine s s' :
  link_inv s -> goroutine_step s s' -> link_inv s'.
Proof.
  intros (Hlen & Hres & Hbody & Hdead & Hdone) Hg.
  destruct Hg as [id Hph Hun | id st resp lines Hph Hun Hc
                 | id st resp lines Hph Hun Hc | id o why lines s1 Hj Hf].
  - unfold link_inv, unresolved in *. proj.
    split; [|split; [|split; [|split]]].
    + now rewrite replace_at_length.
    + exact Hres.
    + intros id' r Hin. destruct (Hbody _ _ Hin) as [[st Hst] Hcase].
      split; [|exact Hcase]. exists st.
      rewrite replace_at_other; [exact Hst | congruence].
    + intros id' started Hph'.
      destruct (Nat.eq_dec id' id) as [-> | Hne].
      * rewrite (replace_at_same _ _ _ _ Hph) in Hph'. discriminate.
      * rewrite replace_at_other in Hph' by exact Hne. eauto.
    + exact Hdone.
  - exact (conj Hlen (conj Hres (conj Hbody (conj Hdead Hdone)))).
  - unfold link_inv, unresolved in *. proj.
    split; [|split; [|split; [|split]]].
    + now rewrite replace_at_length.
    + intros id' o [Hin | Hin]; [discriminate | eauto].
    + intros id' r [Hin | Hin].
      * injection Hin as <- <-. split; [|now left]. exists st.
        now apply (replace_at_same _ _ _ _ Hph).
      * destruct (Hbody _ _ Hin) as [[st' Hst] Hcase].
        split; [|exact Hcase]. exists st'.
        rewrite replace_at_other; [exact Hst | congruence].
    + intros id' started Hph'.
      destruct (Nat.eq_dec id' id) as [-> | Hne].
      * exists resp. now left.
      * rewrite replace_at_other in Hph' by exact Hne.
        destruct (Hdead _ _ Hph') as [r Hr]. exists r. now right.
    + intros id' j o Hn. right. eauto.
  - apply finish_spec in Hf. destruct Hf as (ts & Hr & ->).
    destruct (resolve_at_nth _ _ _ _ Hr) as [(j & Hbefore & Hafter) Hother].
    assert (Hold : forall e,
               In e (EvResolved id o :: failures why ++ trace s) ->
               e = EvResolved id o
               \/ (exists c, e = EvFailed c
                             /\ forall k r, c <> BodyNotRead k r)
               \/ In e (trace s)).
    { intros e [<- | Hin]; [now left|]. apply in_app_or in Hin.
      destruct Hin as [Hin | Hin]; [|now right; right].
      right. left. destruct Hj; simpl in Hin; try contradiction;
        destruct Hin as [<- | []]; eexists; split; try reflexivity;
        discriminate. }
    unfold link_inv, unresolved in *. proj.
    split; [|split; [|split; [|split]]].
    + now rewrite (resolve_at_length _ _ _ _ Hr).
    + intros id' o' Hin.
      destruct (Hold _ Hin) as [He | [(c & He & _) | Hin']];
        [injection He as -> ->; eauto | discriminate |].
      destruct (Hres _ _ Hin') as [k Hk]. exists k.
      rewrite Hother; [exact Hk | congruence].
    + intros id' r Hin.
      destruct (Hold _ Hin) as [He | [(c & He & Hc) | Hin']];
        [discriminate | injection He as <-; now elim (Hc id' r) |].
      destruct (Hbody _ _ Hin') as [[st Hst] Hcase].
      split; [now exists st|].
      destruct (Nat.eq_dec id' id) as [-> | Hne].
      * right. exists j.
        destruct Hj as [Hph | st' Hph | st' alive Hph Hle];
          try (rewrite Hst in Hph; discriminate).
        exact Hafter.
      * rewrite (Hother _ Hne). exact Hcase.
    + intros id' started Hph. destruct (Hdead _ _ Hph) as [r Hin].
      exists r. right. apply in_or_app. now right.
    + intros id' k o' Hn.
      destruct (Nat.eq_dec id' id) as [-> | Hne].
      * rewrite Hafter in Hn. injection Hn as <- <-. now left.
      * rewrite (Hother _ Hne) in Hn. right. apply in_or_app. right. eauto.
Qed.

Lemma run_link_inv sched s : run sched init = Some s -> link_inv s.
Proof.
  apply run_invariant_cases.
  - unfold link_inv. simpl. split; [|split; [|split; [|split]]];
      try tauto; intros [|id]; discriminate.
  - intros s0 H. exact H.
  - intros ok s0 s1. apply link_inv_main.
  - apply link_inv_goroutine.
Qed.

End Invariants.

End HarnessMore.

Module HarnessProgress.

Import Probe Harness GoroutineSteps HarnessInv HarnessFacts HarnessMore.
Import Scenarios.

Lemma resolve_at_any o o' :
  forall ts id ts',
    resolve_at id o ts = Some ts' -> exists ts'', resolve_at id o' ts = Some ts''.
Proof.
  induction ts as [|[i st] ts IH]; intros id ts' H.
  - destruct id; discriminate.
  - destruct id as [|id], st as [o0|]; simpl in *; try discriminate; eauto.
    + destruct (resolve_at id o ts) as [rest|] eqn:Hr; [|discriminate].
      destruct (IH _ _ Hr) as [ts'' ->]. eauto.
    + destruct (resolve_at id o ts) as [rest|] eqn:Hr; [|discriminate].
      destruct (IH _ _ Hr) as [ts'' ->]. eauto.
Qed.

Section Progress.

Variable url : string.
Variable ingressWait : Z.
Variable randPerm : list Z.

Local Abbreviation step := (step url ingressWait randPerm).
Local Abbreviation run := (run url ingressWait randPerm).
Local Abbreviation can_finish := (can_finish url ingressWait randPerm).

Lemma run_app sched sched' :
  forall s0 s s1,
    run sched s0 = Some s -> run sched' s = Some s1 ->
    run (sched ++ sched') s0 = Some s1.
Proof.
  induction sched as [|b sched IH]; intros s0 s s1 Hrun Hrun'; simpl in *.
  - now injection Hrun as ->.
  - destruct (step b s0) as [s0'|]; [|discriminate]. eapply IH; eassumption.
Qed.

Lemma run_snoc sched a :
  forall s0 s s1,
    run sched s0 = Some s -> step a s = Some s1 ->
    run (sched ++ [a]) s0 = Some s1.
Proof.
  intros s0 s s1 Hrun Hstep. eapply run_app; [exact Hrun|].
  simpl. now rewrite Hstep.
Qed.

Lemma extend a s s1 : step a s = Some s1 -> can_finish s1 -> can_finish s.
Proof.
  intros Hstep (rest & s' & Hrun & Hpc).
  exists (a :: rest), s'. simpl. rewrite Hstep. now split.
Qed.

Lemma extend_run cont s s1 :
  run cont s = Some s1 -> can_finish s1 -> can_finish s.
Proof.
  intros Hcont (rest & s' & Hrun & Hpc).
  exists (cont ++ rest), s'. split; [|exact Hpc].
  eapply run_app; eassumption.
Qed.

(** Time passes: nothing but the clock changes. *)
Lemma run_ticks k :
  forall s,
    exists s1,
      run (repeat Tick k) s = Some s1
      /\ pc s1 = pc s /\ now s1 = now s + Z.of_nat k
      /\ tasks s1 = tasks s /\ phases s1 = phases s.
Proof.
  induction k as [|k IH]; intros s.
  - exists s. simpl. repeat split. lia.
  - destruct (IH (tick_state s)) as (s1 & Hrun & Hpc & Hnow & Hts & Hph).
    exists s1. simpl in *. repeat split; auto. lia.
Qed.

(** A goroutine that is still running can be brought to its end: it fails
    to build its request, or time passes until its deadline. *)
Lemma end_task sched s :
  run sched init = Some s ->
  running (tasks s) <> 0%nat ->
  exists cont s1,
    run cont s = Some s1
    /\ pc s1 = pc s
    /\ running (tasks s) = S (running (tasks s1)).
Proof.
  intros Hrun Hrunning.
  destruct (run_link_inv _ _ _ _ _ Hrun) as (Hlen & _).
  destruct (running_can_resolve TimedOut _ Hrunning) as (id & ts & Hr).
  destruct (resolve_at_nth _ _ _ _ Hr) as [(j & Hbefore & _) _].
  assert (Hph : exists ph, nth_error (phases s) id = Some ph).
  { destruct (nth_error (phases s) id) as [ph|] eqn:Hn; [eauto|].
    apply nth_error_None in Hn.
    assert (id < List.length (tasks s))%nat
      by (apply nth_error_Some; congruence).
    lia. }
  destruct Hph as [[|st alive] Hph].
  - destruct (resolve_at_any _ RequestError _ _ _ Hr) as [ts' Hr'].
    eexists [Begin id false], _. simpl. unfold begin_step, finish.
    rewrite Hph, Hr'. split; [reflexivity|]. simpl.
    split; [reflexivity|].
    now destruct (resolve_at_spec _ _ _ _ Hr').
  - destruct (run_ticks (Z.to_nat (st + ingressWait - now s)) s)
      as (s1 & Hticks & Hpc & Hnow & Hts & Hphs).
    assert (Hd : exists s2,
               step (Deadline id) s1 = Some s2
               /\ pc s2 = pc s1 /\ tasks s2 = ts).
    { simpl. unfold deadline_step, finish. rewrite Hphs, Hph, Hts, Hr.
      replace (st + ingressWait <=? now s1) with true
        by (symmetry; apply Z.leb_le; lia).
      eexists. split; [reflexivity|]. now split. }
    destruct Hd as (s2 & Hstep & Hpc2 & Hts2).
    exists (repeat Tick (Z.to_nat (st + ingressWait - now s))
            ++ [Deadline id]), s2.
    split; [eapply run_snoc; eassumption|].
    split; [congruence|].
    rewrite Hts2. now destruct (resolve_at_spec _ _ _ _ Hr).
Qed.

(** The main goroutine takes one step and the rest is known to finish. *)
Ltac advance Hrun Hpc next :=
  eapply (extend (Main true));
  [ simpl; unfold main_step; rewrite Hpc; reflexivity
  | eapply next;
    [ eapply (run_snoc _ (Main true));
      [ exact Hrun | simpl; unfold main_step; rewrite Hpc; reflexivity ]
    | reflexivity ] ].

Lemma finish_AtReport sched s :
  run sched init = Some s -> pc s = AtReport -> can_finish s.
Proof.
  intros Hrun Hpc.
  pose proof (run_time_inv _ _ _ _ _ Hrun) as Ht.
  unfold time_inv in Ht. rewrite Hpc in Ht.
  destruct Ht as (a & b & c & H1 & H2 & H4 & _).
  eexists [Main true], _. simpl. unfold main_step.
  rewrite Hpc, H1, H2, H4. split; reflexivity.
Qed.

Lemma finish_AtT4 sched s :
  run sched init = Some s -> pc s = AtT4 -> can_finish s.
Proof. intros Hrun Hpc. advance Hrun Hpc finish_AtReport. Qed.

Lemma finish_AtWait :
  forall n sched s,
    running (tasks s) = n ->
    run sched init = Some s -> pc s = AtWait -> can_finish s.
Proof.
  induction n as [|n IH]; intros sched s Hn Hrun Hpc.
  - pose proof (run_counter_inv _ _ _ _ _ Hrun) as Hc.
    unfold counter_inv in Hc. rewrite Hpc, Hn in Hc. simpl in Hc.
    assert (Hstep : step (Main true) s = Some (goto AtT4 s)).
    { simpl. unfold main_step. now rewrite Hpc, Hc. }
    eapply extend; [exact Hstep|].
    eapply finish_AtT4; [eapply run_snoc; eassumption | reflexivity].
  - destruct (end_task _ _ Hrun) as (cont & s1 & Hcont & Hpc1 & Hrun1);
      [rewrite Hn; discriminate|].
    eapply extend_run; [exact Hcont|].
    eapply (IH (sched ++ cont)).
    + lia.
    + eapply run_app; eassumption.
    + congruence.
Qed.

Lemma finish_AtDispatch :
  forall todo sched s,
    run sched init = Some s -> pc s = AtDispatch todo -> can_finish s.
Proof.
  induction todo as [|i todo IH]; intros sched s Hrun Hpc.
  - eapply (extend (Main true));
      [simpl; unfold main_step; rewrite Hpc; reflexivity|].
    eapply (finish_AtWait _ (sched ++ [Main true])); [reflexivity | |].
    + eapply (run_snoc _ (Main true));
        [exact Hrun | simpl; unfold main_step; rewrite Hpc; reflexivity].
    + reflexivity.
  - advance Hrun Hpc IH.
Qed.

Hypothesis sample_drawn : Sample.getRandomList ruleCount randPerm <> None.

Lemma finish_AtSelect sched s :
  run sched init = Some s -> pc s = AtSelect -> can_finish s.
Proof.
  intros Hrun Hpc.
  destruct (Sample.getRandomList ruleCount randPerm) as [l|] eqn:Hl;
    [|now elim sample_drawn].
  eapply (extend (Main true));
    [simpl; unfold main_step; rewrite Hpc, Hl; reflexivity|].
  eapply (finish_AtDispatch l (sched ++ [Main true])).
  - eapply (run_snoc _ (Main true));
      [exact Hrun | simpl; unfold main_step; rewrite Hpc, Hl; reflexivity].
  - reflexivity.
Qed.

Lemma finish_AtProxyIP sched s :
  run sched init = Some s -> pc s = AtProxyIP -> can_finish s.
Proof. intros Hrun Hpc. advance Hrun Hpc finish_AtSelect. Qed.

Lemma finish_AtT2 sched s :
  run sched init = Some s -> pc s = AtT2 -> can_finish s.
Proof. intros Hrun Hpc. advance Hrun Hpc finish_AtProxyIP. Qed.

Lemma finish_AtApply sched s :
  run sched init = Some s -> pc s = AtApply -> can_finish s.
Proof. intros Hrun Hpc. advance Hrun Hpc finish_AtT2. Qed.

Lemma finish_AtKubeconfig sched s :
  run sched init = Some s -> pc s = AtKubeconfig -> can_finish s.
Proof. intros Hrun Hpc. advance Hrun Hpc finish_AtApply. Qed.

Lemma finish_AtStart sched s :
  run sched init = Some s -> pc s = AtStart -> can_finish s.
Proof. intros Hrun Hpc. advance Hrun Hpc finish_AtKubeconfig. Qed.

End Progress.

End HarnessProgress.

Module HarnessExtras.

Import Probe Harness HarnessInv HarnessFacts LedgerFacts HarnessMore.
Import HarnessProgress Scenarios.

(** X10: in every run the counter of the wait group is the number of
    goroutines still to be started plus the number of those still running;
    it never drops below zero, so [wg.Done()] never panics. *)
Theorem wait_group_counts_open_goroutines :
  forall (url : string) (ingressWait : Z) (randPerm : list Z)
         (sched : list action) (s : state),
    run url ingressWait randPerm sched init = Some s ->
    wg s = Z.of_nat (pending (pc s) + running (tasks s))
    /\ 0 <= wg s.
Proof.
  intros url ingressWait randPerm sched s Hrun.
  pose proof (run_counter_inv _ _ _ _ _ Hrun) as H.
  unfold counter_inv in H. split; [exact H | lia].
Qed.

Lemma wait_group_counts_open_goroutines_witness :
  wg final = Z.of_nat (pending (pc final) + running (tasks final))
  /\ 0 <= wg final.
Proof.
  apply (wait_group_counts_open_goroutines
           proxy minute identity full_run final).
  vm_compute. reflexivity.
Defined.

(** X11: in every run the test is marked as failed exactly when the main
    goroutine gave up, or a [require] has ended the polling closure of a
    goroutine that still waits for its deadline, or some goroutine resolved
    otherwise than with success.  When the main goroutine gives up, no
    goroutine has been started; and a test that has run to its end is
    failed exactly when some goroutine resolved otherwise than with
    success. *)
Theorem test_fails_iff_main_or_task_failed :
  forall (url : string) (ingressWait : Z) (randPerm : list Z)
         (sched : list action) (s : state),
    run url ingressWait randPerm sched init = Some s ->
    (failed s = true
     <-> pc s = Exited
         \/ (exists id started,
                unresolved id s = true
                /\ nth_error (phases s) id = Some (Polling started false))
         \/ exists i o, In (i, Some o) (tasks s) /\ o <> Succeeded)
    /\ (pc s = Exited -> tasks s = [])
    /\ (pc s = Finished ->
        (failed s = true
         <-> exists i o, In (i, Some o) (tasks s) /\ o <> Succeeded)).
Proof.
  intros url ingressWait randPerm sched s Hrun.
  destruct (run_ledger_inv _ _ _ _ _ Hrun) as (Hf & Hp & Ha & Hr & He).
  destruct (run_link_inv _ _ _ _ _ Hrun)
    as (Hlen & Hres & Hbody & Hdead & Hdone).
  pose proof (run_join_inv _ _ _ _ _ Hrun) as Hj.
  assert (Hfailed : failed s = true <-> exists c, In (EvFailed c) (trace s))
    by (rewrite Hf; apply existsb_is_failure).
  assert (Hiff :
    failed s = true
    <-> pc s = Exited
        \/ (exists id started,
               unresolved id s = true
               /\ nth_error (phases s) id = Some (Polling started false))
        \/ exists i o, In (i, Some o) (tasks s) /\ o <> Succeeded).
  { split.
    - intros Hfl. apply Hfailed in Hfl. destruct Hfl as [c Hin].
      pose proof (Hp c Hin) as Hpin.
      destruct c as [| | | |id|id resp|id]; simpl in Hpin;
        try (left; tauto).
      + right. right. destruct (Hres _ _ Hpin) as [i Hn].
        exists i, RequestError. split; [|discriminate].
        eapply nth_error_In. exact Hn.
      + destruct (Hbody _ _ Hin) as [[st Hst] [Hun | [i Hn]]].
        * right. left. now exists id, st.
        * right. right. exists i, TimedOut. split; [|discriminate].
          eapply nth_error_In. exact Hn.
      + right. right. destruct (Hres _ _ Hpin) as [i Hn].
        exists i, TimedOut. split; [|discriminate].
        eapply nth_error_In. exact Hn.
    - intros [Hex | [(id & st & Hun & Hph) | (i & o & Hin & Ho)]];
        apply Hfailed.
      + destruct (He Hex) as (c & _ & Hin). eauto.
      + destruct (Hdead _ _ Hph) as [r Hin]. eauto.
      + apply In_nth_error in Hin. destruct Hin as [id Hn].
        pose proof (Hr _ _ (Hdone _ _ _ Hn)) as Hb.
        destruct o; simpl in Hb; [now elim Ho | eauto | eauto]. }
  split; [exact Hiff|]. split.
  - intros Hpc. unfold join_inv in Hj. rewrite Hpc in Hj. apply Hj.
  - intros Hpc. rewrite Hiff. split; [|tauto].
    intros [Hex | [(id & st & Hun & _) | Hdone']];
      [congruence | | exact Hdone'].
    apply unresolved_running in Hun.
    unfold join_inv in Hj. rewrite Hpc in Hj. destruct Hj as [H0 _].
    now elim Hun.
Qed.

Lemma test_fails_iff_main_or_task_failed_witness :
  (failed troubled = true
   <-> pc troubled = Exited
       \/ (exists id started,
              unresolved id troubled = true
              /\ nth_error (phases troubled) id
                 = Some (Polling started false))
       \/ exists i o, In (i, Some o) (tasks troubled) /\ o <> Succeeded)
  /\ (pc troubled = Exited -> tasks troubled = [])
  /\ (pc troubled = Finished ->
      (failed troubled = true
       <-> exists i o, In (i, Some o) (tasks troubled) /\ o <> Succeeded)).
Proof.
  apply (test_fails_iff_main_or_task_failed
           proxy short identity troubled_run troubled).
  vm_compute. reflexivity.
Defined.

(** X12: the join cannot get stuck: from every state a run reaches in which
    the main goroutine has not given up, some continuation brings the test
    to its end, provided the sample selector returns. *)
Theorem run_can_always_finish :
  forall (url : string) (ingressWait : Z) (randPerm : list Z)
         (sched : list action) (s : state),
    run url ingressWait randPerm sched init = Some s ->
    pc s <> Exited ->
    Sample.getRandomList ruleCount randPerm <> None ->
    exists rest s',
      run url ingressWait randPerm rest s = Some s' /\ pc s' = Finished.
Proof.
  intros url ingressWait randPerm sched s Hrun Hpc Hsample.
  change (can_finish url ingressWait randPerm s).
  destruct (pc s) eqn:Heq.
  - eapply finish_AtStart; eassumption.
  - eapply finish_AtKubeconfig; eassumption.
  - eapply finish_AtApply; eassumption.
  - eapply finish_AtT2; eassumption.
  - eapply finish_AtProxyIP; eassumption.
  - eapply finish_AtSelect; eassumption.
  - eapply finish_AtDispatch; eassumption.
  - eapply finish_AtWait; [reflexivity | eassumption | eassumption].
  - eapply finish_AtT4; eassumption.
  - eapply finish_AtReport; eassumption.
  - exists [], s. now split.
  - now elim Hpc.
Qed.

Lemma run_can_always_finish_witness :
  exists rest s',
    run proxy minute identity rest init = Some s' /\ pc s' = Finished.
Proof.
  apply (run_can_always_finish proxy minute identity [] init).
  - reflexivity.
  - discriminate.
  - vm_compute. discriminate.
Defined.

(** The goroutines started so far check a prefix of the sample. *)
Lemma dispatched_prefix url ingressWait randPerm sched s :
  run url ingressWait randPerm sched init = Some s ->
  tasks s = []
  \/ exists todo,
      Sample.getRandomList ruleCount randPerm = Some (dispatched s ++ todo).
Proof.
  intros Hrun. pose proof (run_join_inv _ _ _ _ _ Hrun) as Hj.
  unfold join_inv in Hj.
  destruct (pc s); try (left; apply Hj);
    right; [exists todo | exists [] ..]; rewrite ?app_nil_r; apply Hj.
Qed.

(** X13: when [rand.Perm] returns a permutation of the 10000 rule indices,
    a run starts at most twelve goroutines, and each of them checks an index
    of a rule whose document is in the payload that was submitted. *)
Theorem every_task_checks_a_submitted_rule :
  forall (url : string) (ingressWait : Z) (randPerm : list Z)
         (sched : list action) (s : state),
    Sample.rand_Perm_returns ruleCount randPerm ->
    run url ingressWait randPerm sched init = Some s ->
    (List.length (tasks s) <= 12)%nat
    /\ forall i : Z,
        In i (dispatched s) ->
        0 <= i < ruleCount
        /\ Fmt.occurs_in (Manifest.ingress i) Manifest.ingressYaml.
Proof.
  intros url ingressWait randPerm sched s Hp Hrun.
  assert (Hint : GoInt.is_int ruleCount).
  { unfold GoInt.is_int, GoInt.min_int, GoInt.max_int, ruleCount.
    change (2 ^ 63) with 9223372036854775808. lia. }
  assert (Hbig : 10 < ruleCount) by (unfold ruleCount; lia).
  destruct (dispatched_prefix _ _ _ _ _ Hrun) as [Hnil | [todo Hl]].
  - unfold dispatched. rewrite Hnil. simpl. split; [lia | intros i []].
  - destruct (SampleFacts.getRandomList_large_in_bounds
                _ _ Hint Hbig Hp) as (l & Hl' & Hin & _).
    rewrite (SampleFacts.getRandomList_large _ _ Hint Hbig Hp) in Hl, Hl'.
    assert (Hlen : List.length (dispatched s ++ todo) = 12%nat).
    { assert (Heq : dispatched s ++ todo
                    = firstn 10 randPerm ++ [0; ruleCount - 1])
        by congruence.
      rewrite Heq, length_app, length_firstn,
        (SampleFacts.perm_length _ _ Hp).
      change (List.length [0; ruleCount - 1]) with 2%nat.
      unfold ruleCount. lia. }
    split.
    + rewrite length_app in Hlen. unfold dispatched in Hlen.
      rewrite length_map in Hlen. rewrite <- Hlen. apply Nat.le_add_r.
    + intros i Hi.
      assert (Hr : Sample.in_range ruleCount i).
      { apply Hin. assert (Heq : l = dispatched s ++ todo) by congruence.
        rewrite Heq. apply in_or_app. now left. }
      split; [exact Hr|].
      apply ManifestFacts.ingress_in_ingressYaml. exact Hr.
Qed.

Lemma every_task_checks_a_submitted_rule_witness :
  (List.length (tasks final) <= 12)%nat
  /\ forall i : Z,
      In i (dispatched final) ->
      0 <= i < ruleCount
      /\ Fmt.occurs_in (Manifest.ingress i) Manifest.ingressYaml.
Proof.
  apply (every_task_checks_a_submitted_rule
           proxy minute identity full_run final).
  - split; [unfold ruleCount; lia | apply Permutation_refl].
  - vm_compute. reflexivity.
Defined.

End HarnessExtras.
